(** * Camera manager, token bucket and code analyzer: a shallow embedding

    The development follows [src/core.py] (the [CameraManager] class with its
    background capture loop, and [analyze_code]) and [src/api.py] (the
    per-user [TokenBucket] rate limiter and the HTTP handlers). *)

From Stdlib Require Import QArith Qround Qminmax Lqa.
From Stdlib Require Import Sorted.
From stdpp Require Import gmap strings list fin_maps.
From Equations Require Import Equations.

(** * Part I: the token bucket of [src/api.py] *)

Module Bucket.

Local Open Scope Q_scope.

(** Python floats are modelled as rationals together with a rounding
    operator [rnd] applied after every arithmetic operation, in the way
    IEEE-754 defines them.  The rounding operator is kept abstract; the
    facts used about it are collected in [rounding]. *)
Record rounding (rnd : Q -> Q) : Prop := {
  rnd_mono : forall x y, x <= y -> rnd x <= rnd y;
  rnd_zero : rnd 0 == 0;
}.

(** [class TokenBucket]: the four attributes set by [__init__]. *)
Record TokenBucket := {
  rate : Q;
  capacity : Q;
  tokens : Q;
  timestamp : Q;
}.

(** [TokenBucket.__init__(rate, capacity)], called at clock reading [now]. *)
Definition new_bucket (rate capacity now : Q) : TokenBucket :=
  {| rate := rate; capacity := capacity; tokens := capacity; timestamp := now |}.

Section Consume.
Variable rnd : Q -> Q.

Definition fsub (x y : Q) : Q := rnd (x - y).
Definition fadd (x y : Q) : Q := rnd (x + y).
Definition fmul (x y : Q) : Q := rnd (x * y).

(** Python's [min(a, b)]: [b] when [b < a], otherwise [a]. *)
Definition py_min (a b : Q) : Q :=
  match b ?= a with Lt => b | _ => a end.

(** [self.tokens] after the refill assignment of line 21. *)
Definition refill (b : TokenBucket) (now : Q) : Q :=
  let delta := fsub now (timestamp b) in
  py_min (capacity b) (fadd (tokens b) (fmul delta (rate b))).

(** [TokenBucket.consume(tokens)] at clock reading [now]: the returned
    flag and the bucket after the call. *)
Definition consume (b : TokenBucket) (now : Q) (n : Q) : bool * TokenBucket :=
  let t := refill b now in
  match t ?= n with
  | Lt => (false, {| rate := rate b; capacity := capacity b;
                     tokens := t; timestamp := now |})
  | _ => (true, {| rate := rate b; capacity := capacity b;
                   tokens := fsub t n; timestamp := now |})
  end.

(** A sequence of [consume] calls, each given as the clock reading and the
    requested amount; the flags are returned in call order. *)
Fixpoint consume_all (b : TokenBucket) (calls : list (Q * Q))
  : list bool * TokenBucket :=
  match calls with
  | [] => ([], b)
  | (now, n) :: rest =>
      let '(ok, b1) := consume b now n in
      let '(oks, b2) := consume_all b1 rest in
      (ok :: oks, b2)
  end.
End Consume.

(** The invariant of the data model: [0 <= tokens <= capacity]. *)
Definition bucket_inv (b : TokenBucket) : Prop :=
  0 <= tokens b /\ tokens b <= capacity b.

(** Clock readings never go back, starting from the bucket's timestamp. *)
Fixpoint clock_mono (last : Q) (calls : list (Q * Q)) : Prop :=
  match calls with
  | [] => True
  | (now, _) :: rest => last <= now /\ clock_mono now rest
  end.

(** The buckets after each call of a sequence, in call order. *)
Fixpoint consume_trace (rnd : Q -> Q) (b : TokenBucket) (calls : list (Q * Q))
  : list TokenBucket :=
  match calls with
  | [] => []
  | (now, n) :: rest =>
      let b1 := snd (consume rnd b now n) in b1 :: consume_trace rnd b1 rest
  end.

(** A concrete rounding: down to the next multiple of [1/1024]. *)
Definition round_grid (x : Q) : Q := Qfloor (x * 1024) # 1024.

(** Another concrete rounding: to the nearest multiple of [1/1024], a tie
    going up. *)
Definition round_near (x : Q) : Q := Qfloor (x * 1024 + (1 # 2)) # 1024.

(** [get_bucket_for_user] creates buckets with rate [1.0] and capacity [5]. *)
Definition default_bucket (now : Q) : TokenBucket := new_bucket 1 5 now.

(** The module-level dictionary [_buckets] maps a user id to its bucket. *)
Abbreviation buckets := (gmap string TokenBucket).

(** [get_bucket_for_user(user_id)]; [now] is the clock reading taken by
    [TokenBucket.__init__] when a new bucket is created. *)
Definition get_bucket_for_user (bs : buckets) (user_id : string) (now : Q)
  : TokenBucket * buckets :=
  match bs !! user_id with
  | Some b => (b, bs)
  | None => let b := default_bucket now in (b, <[user_id := b]> bs)
  end.

(** What [rate_limit_middleware] answers: a 400, a 429, or the response of
    the wrapped handler. *)
Inductive gate := Gate400 | Gate429 | GatePass.

(** [rate_limit_middleware]: [hdr] is the value of the [x-user-id] header,
    [t0] the clock reading of a bucket creation and [t1] the one of
    [consume].  The bucket object is shared with the dictionary, so the
    consumed bucket is stored back under the same key. *)
Definition rate_limit_middleware (rnd : Q -> Q) (bs : buckets)
    (hdr : option string) (t0 t1 : Q) : gate * buckets :=
  match hdr with
  | None => (Gate400, bs)
  | Some user_id =>
      if String.eqb user_id "" then (Gate400, bs)
      else
        let '(b, bs1) := get_bucket_for_user bs user_id t0 in
        let '(ok, b1) := consume rnd b t1 1 in
        let bs2 := <[user_id := b1]> bs1 in
        if ok then (GatePass, bs2) else (Gate429, bs2)
  end.

(** A request as the middleware sees it: the [x-user-id] header and the two
    clock readings. *)
Definition request : Type := option string * Q * Q.

(** The dictionary after each request of a sequence, starting from [bs]. *)
Fixpoint serve_trace (rnd : Q -> Q) (bs : buckets) (reqs : list request)
  : list buckets :=
  match reqs with
  | [] => []
  | (hdr, t0, t1) :: rest =>
      let bs1 := snd (rate_limit_middleware rnd bs hdr t0 t1) in
      bs1 :: serve_trace rnd bs1 rest
  end.

(** The clock readings of a sequence of requests never go back. *)
Fixpoint requests_mono (last : Q) (reqs : list request) : Prop :=
  match reqs with
  | [] => True
  | (_, t0, t1) :: rest => last <= t0 /\ t0 <= t1 /\ requests_mono t1 rest
  end.

(** The dictionary-wide invariant: every bucket is a default bucket within
    its bounds, last touched no later than [last]. *)
Definition buckets_ok (last : Q) (bs : buckets) : Prop :=
  map_Forall (fun _ b => bucket_inv b /\ timestamp b <= last /\
                         rate b = 1 /\ capacity b = 5) bs.

(** The amounts a sequence of [consume] calls handed out: the sum of the
    requested amounts over the calls that returned [True]. *)
Fixpoint granted (rnd : Q -> Q) (b : TokenBucket) (calls : list (Q * Q)) : Q :=
  match calls with
  | [] => 0
  | (now, n) :: rest =>
      let '(ok, b1) := consume rnd b now n in
      (if ok then n else 0) + granted rnd b1 rest
  end.

(** The answers of the middleware to a sequence of requests, and the
    dictionary after them. *)
Fixpoint serve (rnd : Q -> Q) (bs : buckets) (reqs : list request)
  : list gate * buckets :=
  match reqs with
  | [] => ([], bs)
  | (hdr, t0, t1) :: rest =>
      let '(g, bs1) := rate_limit_middleware rnd bs hdr t0 t1 in
      let '(gs, bs2) := serve rnd bs1 rest in
      (g :: gs, bs2)
  end.

(** The clock reading of the last call, [last] if there is none. *)
Fixpoint last_clock (last : Q) (calls : list (Q * Q)) : Q :=
  match calls with
  | [] => last
  | (now, _) :: rest => last_clock now rest
  end.

End Bucket.

(** * Part II: Python exceptions *)

Module Py.

(** A Python exception: its class name and message. *)
Inductive exn := Exn (cls msg : string).

Definition RuntimeError (msg : string) : exn := Exn "RuntimeError" msg.

(** A call returns a value or raises. *)
Inductive result (A : Type) := Return (a : A) | Raise (e : exn).
Arguments Return {A} a.
Arguments Raise {A} e.

End Py.

(** * Part III: the camera manager of [src/core.py] *)

Module Camera.
Export Py.

Abbreviation bytes := (list Byte.byte).

(** A one-dimensional [numpy.ndarray] of [uint8] values, as [cv2.imencode]
    returns it. *)
Record uint8_array := { elems : list Byte.byte }.

(** What [_latest_frame] holds once a frame is published: the [bytes] of
    [buf.getvalue()], or, on the fallback path, the array of [cv2.imencode]
    as it is (line 114 stores it without a conversion). *)
Inductive stored := Bytes (b : bytes) | Array (a : uint8_array).

(** A raw frame as the capture device delivers it: pixels, each a list of
    channel values. *)
Abbreviation ndarray := (list (list Z)).

(** The optional imports at the top of the module and the three library
    calls of the capture loop.  [pil_jpeg] stands for lines 103-106
    ([Image.fromarray], [img.save(buf, format="JPEG")], [buf.getvalue()]);
    [cv_imencode] returns the flag and the array of [cv2.imencode];
    [array_truth] is the truth value numpy gives an array, which [not frame]
    in the frame handler asks for. *)
Record Libs := {
  cv2_present : bool;
  Image_present : bool;
  cvtColor : ndarray -> result ndarray;
  pil_jpeg : ndarray -> result bytes;
  cv_imencode : ndarray -> result (bool * uint8_array);
  array_truth : uint8_array -> result bool;
}.

(** A [cv2.VideoCapture] object: whether [isOpened()] holds, and how often
    [release()] and [read()] were called on it. *)
Record capture := {
  cap_opened : bool;
  cap_releases : nat;
  cap_reads : nat;
}.

(** The points at which the coroutine [_capture_loop] is suspended, each
    with the local variables that are live there, and its two final states. *)
Inductive loop_pc :=
| PcCreated                      (* task created, body not yet entered *)
| PcSleepPaused                  (* line 91: asyncio.sleep(0.1) *)
| PcRead (h : nat)               (* line 94: to_thread(self._cap.read) *)
| PcSleepMiss                    (* line 96: asyncio.sleep(0.1) *)
| PcConvert (frame : ndarray)    (* line 100: to_thread(cvtColor) *)
| PcEncode (frame_rgb : ndarray) (* line 109: to_thread(cv2.imencode) *)
| PcSleepInterval                (* line 116: asyncio.sleep(interval) *)
| PcDone                         (* the coroutine returned *)
| PcFailed (e : exn).            (* the coroutine raised [e] *)

Definition finished (pc : loop_pc) : bool :=
  match pc with PcDone | PcFailed _ => true | _ => false end.

(** The attributes of a [CameraManager]; [_cap] and [_task] hold references
    into the tables of the [world] below. *)
Record CameraManager := {
  device_index : Z;
  fps : Z;
  _cap : option nat;
  _task : option nat;
  _running : bool;
  _paused : bool;
  _latest_frame : option stored;
}.

(** The manager together with the objects it refers to: every capture
    object and every task created so far (a reference is an index), and
    the history of the assignments to [_latest_frame]. *)
Record world := {
  mgr : CameraManager;
  caps : list capture;
  tasks : list loop_pc;
  published : list (option stored);
}.

(** [CameraManager.__init__]. *)
Definition new_manager (device_index fps : Z) : CameraManager :=
  {| device_index := device_index; fps := fps; _cap := None; _task := None;
     _running := false; _paused := false; _latest_frame := None |}.

(** [camera = CameraManager()] of [src/api.py], with [_DEFAULT_FPS = 5]. *)
Definition init : world :=
  {| mgr := new_manager 0 5; caps := []; tasks := []; published := [] |}.

Definition set_cap (c : option nat) (m : CameraManager) : CameraManager :=
  {| device_index := device_index m; fps := fps m; _cap := c; _task := _task m;
     _running := _running m; _paused := _paused m;
     _latest_frame := _latest_frame m |}.

Definition set_task (t : option nat) (m : CameraManager) : CameraManager :=
  {| device_index := device_index m; fps := fps m; _cap := _cap m; _task := t;
     _running := _running m; _paused := _paused m;
     _latest_frame := _latest_frame m |}.

Definition set_running (b : bool) (m : CameraManager) : CameraManager :=
  {| device_index := device_index m; fps := fps m; _cap := _cap m;
     _task := _task m; _running := b; _paused := _paused m;
     _latest_frame := _latest_frame m |}.

Definition set_paused (b : bool) (m : CameraManager) : CameraManager :=
  {| device_index := device_index m; fps := fps m; _cap := _cap m;
     _task := _task m; _running := _running m; _paused := b;
     _latest_frame := _latest_frame m |}.

Definition set_latest_frame (f : option stored) (m : CameraManager)
  : CameraManager :=
  {| device_index := device_index m; fps := fps m; _cap := _cap m;
     _task := _task m; _running := _running m; _paused := _paused m;
     _latest_frame := f |}.

Definition with_mgr (f : CameraManager -> CameraManager) (w : world) : world :=
  {| mgr := f (mgr w); caps := caps w; tasks := tasks w;
     published := published w |}.

Definition with_caps (f : list capture -> list capture) (w : world) : world :=
  {| mgr := mgr w; caps := f (caps w); tasks := tasks w;
     published := published w |}.

Definition with_tasks (f : list loop_pc -> list loop_pc) (w : world) : world :=
  {| mgr := mgr w; caps := caps w; tasks := f (tasks w);
     published := published w |}.

Definition set_pc (t : nat) (pc : loop_pc) (w : world) : world :=
  with_tasks (fun ts => <[t := pc]> ts) w.

(** ** The capture device *)

(** [cv2.VideoCapture(device_index)]: a new object, opened or not. *)
Definition video_capture (open_ok : bool) (w : world) : nat * world :=
  (length (caps w),
   with_caps (fun cs => cs ++ [{| cap_opened := open_ok; cap_releases := 0;
                                  cap_reads := 0 |}]) w).

Definition isOpened (h : nat) (w : world) : bool :=
  match caps w !! h with Some c => cap_opened c | None => false end.

Definition release (h : nat) (w : world) : world :=
  with_caps (fun cs =>
    match cs !! h with
    | Some c => <[h := {| cap_opened := false;
                          cap_releases := S (cap_releases c);
                          cap_reads := cap_reads c |}]> cs
    | None => cs
    end) w.

Definition count_read (h : nat) (w : world) : world :=
  with_caps (fun cs =>
    match cs !! h with
    | Some c => <[h := {| cap_opened := cap_opened c;
                          cap_releases := cap_releases c;
                          cap_reads := S (cap_reads c) |}]> cs
    | None => cs
    end) w.

(** ** The capture loop *)

(** Lines 113-114: the assignment to [_latest_frame] under the lock.  The
    lock is free whenever a coroutine is suspended (no [await] occurs while
    it is held), so taking it never suspends the loop. *)
Definition publish (jpeg : option stored) (w : world) : world :=
  {| mgr := set_latest_frame jpeg (mgr w); caps := caps w; tasks := tasks w;
     published := published w ++ [jpeg] |}.

(** The head of the [while] loop (lines 89-94), run until the next
    suspension of task [t]. *)
Definition loop_top (t : nat) (w : world) : world :=
  match _running (mgr w), _cap (mgr w) with
  | true, Some h =>
      if _paused (mgr w) then set_pc t PcSleepPaused w
      else set_pc t (PcRead h) (count_read h w)
  | _, _ => set_pc t PcDone w
  end.

(** The scheduler resumes task [t]; the task runs up to its next suspension
    or to its end.  [inp] is what [cap.read] returned, used when the task
    was waiting for it. *)
Definition loop_resume (L : Libs) (t : nat) (inp : bool * ndarray) (w : world)
  : world :=
  match tasks w !! t with
  | None => w
  | Some pc =>
      match pc with
      | PcCreated | PcSleepPaused | PcSleepMiss | PcSleepInterval =>
          loop_top t w
      | PcRead _ =>
          let '(ret, frame) := inp in
          if ret then set_pc t (PcConvert frame) w else set_pc t PcSleepMiss w
      | PcConvert frame =>
          match cvtColor L frame with
          | Raise e => set_pc t (PcFailed e) w
          | Return frame_rgb =>
              if Image_present L then
                match pil_jpeg L frame_rgb with
                | Raise e => set_pc t (PcFailed e) w
                | Return jpeg =>
                    set_pc t PcSleepInterval (publish (Some (Bytes jpeg)) w)
                end
              else set_pc t (PcEncode frame_rgb) w
          end
      | PcEncode frame_rgb =>
          match cv_imencode L frame_rgb with
          | Raise e => set_pc t (PcFailed e) w
          | Return (ret2, buf) =>
              set_pc t PcSleepInterval
                (publish (if ret2 then Some (Array buf) else None) w)
          end
      | PcDone | PcFailed _ => w
      end
  end.

(** [interval = 1.0 / max(1, self.fps)]. *)
Definition interval (m : CameraManager) : Q := 1 / inject_Z (Z.max 1 (fps m)).

(** ** The operations of the manager *)

(** [CameraManager.start]; [open_ok] tells whether the device opens. *)
Definition start (L : Libs) (open_ok : bool) (w : world) : result unit * world :=
  if negb (cv2_present L) then
    (Raise (RuntimeError "OpenCV (cv2) is required for camera functionality"), w)
  else if _running (mgr w) then (Return tt, w)
  else
    let '(h, w1) := video_capture open_ok w in
    let w2 := with_mgr (set_cap (Some h)) w1 in
    if negb (isOpened h w2) then
      (Raise (RuntimeError "Unable to open camera device"), release h w2)
    else
      let t := length (tasks w2) in
      (Return tt,
       with_tasks (fun ts => ts ++ [PcCreated])
         (with_mgr (fun m => set_task (Some t)
                               (set_paused false (set_running true m))) w2)).

(** [CameraManager.pause]. *)
Definition pause (w : world) : result unit * world :=
  (Return tt, with_mgr (set_paused true) w).

(** [CameraManager.resume]. *)
Definition resume (L : Libs) (open_ok : bool) (w : world) : result unit * world :=
  if negb (_running (mgr w)) then start L open_ok w
  else (Return tt, with_mgr (set_paused false) w).

(** How often a task that sees [_running] false is resumed at most before
    it ends: read, convert, encode, sleep. *)
Definition await_bound : nat := 4.

(** Resume task [t] until it has finished, at most [n] times. *)
Fixpoint run_task (n : nat) (L : Libs) (t : nat) (inp : bool * ndarray)
    (w : world) : world :=
  match n with
  | O => w
  | S k =>
      match tasks w !! t with
      | Some pc =>
          if finished pc then w else run_task k L t inp (loop_resume L t inp w)
      | None => w
      end
  end.

(** [await self._task]: the outcome once the task has finished, [None]
    while it has not. *)
Definition await_task (L : Libs) (t : nat) (inp : bool * ndarray) (w : world)
  : option (result unit * world) :=
  let w1 := run_task await_bound L t inp w in
  match tasks w1 !! t with
  | Some PcDone => Some (Return tt, w1)
  | Some (PcFailed e) => Some (Raise e, w1)
  | _ => None
  end.

(** Lines 70-73 of [stop]: release the capture and forget the task. *)
Definition stop_cleanup (w : world) : world :=
  let w1 :=
    match _cap (mgr w) with
    | Some h => with_mgr (set_cap None) (release h w)
    | None => w
    end in
  with_mgr (set_task None) w1.

(** [CameraManager.stop]; [None] stands for a call that does not return.
    [inp] is the result of the [cap.read] the loop may be waiting for. *)
Definition stop (L : Libs) (inp : bool * ndarray) (w : world)
  : option (result unit * world) :=
  let w1 := with_mgr (set_running false) w in
  let awaited :=
    match _task (mgr w1) with
    | Some t => await_task L t inp w1
    | None => Some (Return tt, w1)
    end in
  match awaited with
  | None => None
  | Some (Raise e, w2) => Some (Raise e, w2)
  | Some (Return _, w2) => Some (Return tt, stop_cleanup w2)
  end.

(** [CameraManager.status]: the values under "running", "paused" and
    "has_frame". *)
Definition status (w : world) : bool * bool * bool :=
  (_running (mgr w), _paused (mgr w),
   match _latest_frame (mgr w) with Some _ => true | None => false end).

(** [CameraManager.get_latest_frame]. *)
Definition get_latest_frame (w : world) : option stored := _latest_frame (mgr w).

(** The answer of the handler [camera_frame] of [src/api.py]: a response,
    or an exception raised in the handler or while the response is sent. *)
Inductive frame_response :=
| Http200 (body : bytes) (media_type : string)
| Http404 (detail : string)
| FrameRaises (e : exn).

Definition ValueError (msg : string) : exn := Exn "ValueError" msg.

(** [camera_frame].  [not frame] holds for [None] and for empty bytes; on
    an array it asks numpy for the truth value, which may raise.  An array
    that passes the test is handed to [StreamingResponse], which sends
    bytes and strings only and fails on it. *)
Definition camera_frame (L : Libs) (w : world) : frame_response :=
  match get_latest_frame w with
  | None | Some (Bytes []) => Http404 "no frame available"
  | Some (Bytes frame) => Http200 frame "image/jpeg"
  | Some (Array a) =>
      match array_truth L a with
      | Raise e => FrameRaises e
      | Return false => Http404 "no frame available"
      | Return true =>
          FrameRaises
            (Exn "AttributeError" "'numpy.ndarray' object has no attribute 'encode'")
      end
  end.

(** ** The three states of the data model *)

Inductive state := Stopped | Running | Paused.

(** The state the two flags stand for: [resume] and the loop take
    [_running] false as stopped, whatever [_paused] says. *)
Definition state_of (m : CameraManager) : state :=
  if _running m then (if _paused m then Paused else Running) else Stopped.

(** ** Runs of the system *)

(** A call of an operation by a client, or the scheduler resuming a task.
    Calls are taken one at a time: a call of the manager runs to its end,
    its awaits included, before the next action.  Two requests that overlap
    at an await of [start] or [stop] are not among these runs. *)
Inductive action :=
| Start (open_ok : bool)
| Pause
| Resume (open_ok : bool)
| Stop (inp : bool * ndarray)
| Tick (t : nat) (inp : bool * ndarray).

(** The world after an action; [None] when the call does not return. *)
Definition step (L : Libs) (a : action) (w : world) : option world :=
  match a with
  | Start o => Some (snd (start L o w))
  | Pause => Some (snd (pause w))
  | Resume o => Some (snd (resume L o w))
  | Stop inp => snd <$> stop L inp w
  | Tick t inp => Some (loop_resume L t inp w)
  end.

Fixpoint run (L : Libs) (acts : list action) (w : world) : option world :=
  match acts with
  | [] => Some w
  | a :: rest =>
      match step L a w with
      | Some w1 => run L rest w1
      | None => None
      end
  end.

(** The worlds that runs from [init] lead to. *)
Inductive reachable (L : Libs) : world -> Prop :=
| reach_init : reachable L init
| reach_step a w w1 :
    reachable L w -> step L a w = Some w1 -> reachable L w1.

(** How many resumptions a task needs at most to end once [_running] is
    false. *)
Definition steps_left (pc : loop_pc) : nat :=
  match pc with
  | PcRead _ => 4
  | PcConvert _ => 3
  | PcEncode _ => 2
  | PcCreated | PcSleepPaused | PcSleepMiss | PcSleepInterval => 1
  | PcDone | PcFailed _ => 0
  end.

(** What holds in every reachable world, and also while [stop] waits for
    the loop: the only task that may still run is the one [_task] refers to. *)
Record inv0 (L : Libs) (w : world) : Prop := {
  inv_cv2 : _running (mgr w) = true -> cv2_present L = true;
  inv_live : forall t pc, tasks w !! t = Some pc -> finished pc = false ->
             _task (mgr w) = Some t;
  inv_task : forall t, _task (mgr w) = Some t -> t < length (tasks w);
  inv_cap : forall h, _cap (mgr w) = Some h -> h < length (caps w);
  inv_run_cap : _running (mgr w) = true -> is_Some (_cap (mgr w));
  inv_frame : _latest_frame (mgr w) = default None (last (published w));
  inv_encode : forall t f, tasks w !! t = Some (PcEncode f) ->
               Image_present L = false;
}.

(** Between two actions, a task runs only while [_running] is set. *)
Definition inv (L : Libs) (w : world) : Prop :=
  inv0 L w /\
  forall t pc, tasks w !! t = Some pc -> finished pc = false ->
               _running (mgr w) = true.

(** A capture object that was released and is no longer open. *)
Definition released (c : capture) : Prop :=
  cap_opened c = false /\ 0 < cap_releases c.

(** How an iteration of the loop can fail to convert or encode its frame
    when resumed at [pc]: a library call raises, or [cv2.imencode] returns
    a false flag. *)
Inductive failure := Raised (e : exn) | Flagged.

Definition iteration_failure (L : Libs) (pc : loop_pc) : option failure :=
  match pc with
  | PcConvert frame =>
      match cvtColor L frame with
      | Raise e => Some (Raised e)
      | Return frame_rgb =>
          if Image_present L then
            match pil_jpeg L frame_rgb with
            | Raise e => Some (Raised e)
            | Return _ => None
            end
          else None
      end
  | PcEncode frame_rgb =>
      match cv_imencode L frame_rgb with
      | Raise e => Some (Raised e)
      | Return (false, _) => Some Flagged
      | Return (true, _) => None
      end
  | _ => None
  end.

(** An iteration's failure is absorbed when task [t], resumed in [w], stays
    alive, publishes nothing, leaves the frame store as it was, and no later
    [stop] raises. *)
Definition failure_absorbed (L : Libs) (t : nat) (inp : bool * ndarray)
    (w : world) : Prop :=
  let w' := loop_resume L t inp w in
  (exists pc', tasks w' !! t = Some pc' /\ finished pc' = false) /\
  published w' = published w /\
  get_latest_frame w' = get_latest_frame w /\
  (forall inp' r w2, stop L inp' w' = Some (r, w2) -> r = Return tt).

(** Successful encoders deliver data: Pillow at least one byte, and
    [cv2.imencode] an array of more than one element. *)
Definition encoders_nonempty (L : Libs) : Prop :=
  (forall f b, pil_jpeg L f = Return b -> b <> []) /\
  (forall f a, cv_imencode L f = Return (true, a) -> 2 <= length (elems a)).

Definition ambiguous : exn :=
  ValueError "The truth value of an array with more than one element is ambiguous. Use a.any() or a.all()".

(** numpy refuses a truth value to an array of more than one element. *)
Definition truth_of_arrays_raises (L : Libs) : Prop :=
  forall a, 2 <= length (elems a) -> array_truth L a = Raise ambiguous.

(** What the loop can have published: non-empty bytes when Pillow is
    there; on the fallback path (where [Image] is [None]) an array of more
    than one element, or absence. *)
Definition good_frame (L : Libs) (j : option stored) : Prop :=
  match j with
  | Some (Bytes b) => Image_present L = true /\ b <> []
  | Some (Array a) => Image_present L = false /\ 2 <= length (elems a)
  | None => Image_present L = false
  end.

(** The kind of a published value tells the path it came from: bytes come
    from Pillow; an array or absence comes from the fallback path. *)
Definition path_frame (L : Libs) (j : option stored) : Prop :=
  match j with
  | Some (Bytes _) => Image_present L = true
  | Some (Array _) | None => Image_present L = false
  end.

Definition frames_ok (L : Libs) (w : world) : Prop :=
  Forall (good_frame L) (published w).


(** ** Sample libraries and runs *)

Definition cv2_error (msg : string) : exn := Exn "cv2.error" msg.

(** A colour conversion in the manner of [cv2.cvtColor(f, COLOR_BGR2RGB)]:
    it reverses the channels of three-channel pixels and rejects any other
    frame. *)
Definition sample_cvtColor (f : ndarray) : result ndarray :=
  if forallb (fun px => length px =? 3) f then Return (map (@rev Z) f)
  else Raise (cv2_error "Invalid number of channels in input image").

Definition sample_jpeg : bytes := [Byte.xff; Byte.xd8; Byte.xff; Byte.xd9].

Definition sample_pil_jpeg (f : ndarray) : result bytes :=
  Return (sample_jpeg ++ [Byte.x00] ++ sample_jpeg).

Definition sample_array : uint8_array := {| elems := sample_jpeg |}.

(** An encoder in the manner of [cv2.imencode]: it reports failure on an
    empty frame and raises on a channel value above 255. *)
Definition sample_imencode (f : ndarray) : result (bool * uint8_array) :=
  match f with
  | [] => Return (false, {| elems := [] |})
  | _ =>
      if forallb (forallb (fun v => (v <=? 255)%Z)) f
      then Return (true, sample_array)
      else Raise (cv2_error "Unsupported depth")
  end.

(** The truth value of an array in the manner of numpy: that of the element
    of a one-element array, false for an empty array, none for a longer
    one. *)
Definition sample_array_truth (a : uint8_array) : result bool :=
  match elems a with
  | [] => Return false
  | [x] => Return (negb (Byte.eqb x Byte.x00))
  | _ => Raise ambiguous
  end.

(** Both OpenCV and Pillow installed. *)
Definition sample_libs : Libs :=
  {| cv2_present := true; Image_present := true;
     cvtColor := sample_cvtColor; pil_jpeg := sample_pil_jpeg;
     cv_imencode := sample_imencode; array_truth := sample_array_truth |}.

(** OpenCV only: the loop encodes with [cv2.imencode]. *)
Definition sample_libs_cv : Libs :=
  {| cv2_present := true; Image_present := false;
     cvtColor := sample_cvtColor; pil_jpeg := sample_pil_jpeg;
     cv_imencode := sample_imencode; array_truth := sample_array_truth |}.

Definition colour_frame : ndarray := [[1; 2; 3]; [4; 5; 6]]%Z.
Definition gray_frame : ndarray := [[7]]%Z.
Definition no_frame : bool * ndarray := (false, []).

(** The device opens, the loop starts and receives a frame: the task is
    about to convert it. *)
Definition run_to_convert (frame : ndarray) : list action :=
  [Start true; Tick 0 no_frame; Tick 0 (true, frame)].

(** A first iteration on [colour_frame] with the fallback encoder, then a
    second iteration that has read and converted an empty frame and is about
    to encode it. *)
Definition run_to_encode_empty : list action :=
  run_to_convert colour_frame ++
  [Tick 0 no_frame; Tick 0 no_frame;
   Tick 0 no_frame; Tick 0 (true, []); Tick 0 no_frame].

(** One full iteration on [frame], up to the sleep that ends it. *)
Definition run_iteration (L : Libs) (frame : ndarray) : list action :=
  if Image_present L then [Tick 0 no_frame; Tick 0 (true, frame); Tick 0 no_frame]
  else [Tick 0 no_frame; Tick 0 (true, frame); Tick 0 no_frame; Tick 0 no_frame].

(** The world a run from [init] ends in ([init] itself if a call of the
    run does not return). *)
Definition world_after (L : Libs) (acts : list action) : world :=
  default init (run L acts init).

(** The scheduler resumes tasks one after the other: each entry names the
    task and what [cap.read] returned, should the task be waiting for it. *)
Fixpoint resume_all (L : Libs) (ticks : list (nat * (bool * ndarray)))
    (w : world) : world :=
  match ticks with
  | [] => w
  | (t, inp) :: rest => resume_all L rest (loop_resume L t inp w)
  end.

(** Calls of [pause] and [resume] only. *)
Definition is_toggle (a : action) : bool :=
  match a with Pause | Resume _ => true | _ => false end.

(** At most one capture loop is alive. *)
Definition single_loop (w : world) : Prop :=
  forall t1 t2 pc1 pc2,
    tasks w !! t1 = Some pc1 -> finished pc1 = false ->
    tasks w !! t2 = Some pc2 -> finished pc2 = false -> t1 = t2.

(** No task is in the middle of an iteration. *)
Definition quiet (w : world) : Prop :=
  forall t pc, tasks w !! t = Some pc -> steps_left pc <= 1.

End Camera.

(** * Part IV: [analyze_code] of [src/core.py] *)

Module Analyzer.
Import Py.

(** A Python [str]: its code points. *)
Abbreviation str := (list N).

(** The literal of an ASCII string. *)
Definition lit (s : string) : str :=
  map (fun a => N.of_nat (Ascii.nat_of_ascii a)) (String.list_ascii_of_string s).

(** The line boundaries of [str.splitlines]: LF, VT, FF, CR, FS, GS, RS,
    NEL, LS and PS. *)
Definition is_linebreak (c : N) : bool :=
  match c with
  | 10 | 11 | 12 | 13 | 28 | 29 | 30 | 133 | 8232 | 8233 => true
  | _ => false
  end%N.

(** [str.splitlines()], with the current line [cur] kept in reverse; CR LF
    counts as one boundary and a final empty line is not produced. *)
Fixpoint splitlines_from (cur : str) (s : str) : list str :=
  match s with
  | [] => match cur with [] => [] | _ => [rev cur] end
  | c :: rest =>
      if is_linebreak c then
        rev cur ::
          match rest with
          | c' :: rest' =>
              if (c =? 13)%N && (c' =? 10)%N then splitlines_from [] rest'
              else splitlines_from [] rest
          | [] => splitlines_from [] rest
          end
      else splitlines_from (c :: cur) rest
  end.

Definition splitlines (s : str) : list str := splitlines_from [] s.

Fixpoint starts_with (pat s : str) : bool :=
  match pat, s with
  | [], _ => true
  | p :: pat', c :: s' => (p =? c)%N && starts_with pat' s'
  | _ :: _, [] => false
  end.

(** [pat in s] for strings. *)
Fixpoint contains (pat s : str) : bool :=
  starts_with pat s || match s with [] => false | _ :: s' => contains pat s' end.

(** [[i + 1 for i, l in enumerate(lines) if p(l)]], counting from [i]. *)
Fixpoint line_numbers (p : str -> bool) (i : Z) (lines : list str) : list Z :=
  match lines with
  | [] => []
  | l :: rest =>
      if p l then (i + 1)%Z :: line_numbers p (i + 1)%Z rest
      else line_numbers p (i + 1)%Z rest
  end.

(** A node of the tree [ast.parse] returns: its class, its [lineno]
    attribute if it has one, whether its [type] attribute is [None] (read
    for [ExceptHandler] nodes only), and its child nodes in the order of
    [ast.iter_child_nodes]. *)
#[warnings="-register-all"]
Inductive ast := Node (cls : string) (lineno : option Z) (type_none : bool)
                      (children : list ast).

Definition node_cls (n : ast) : string := let 'Node c _ _ _ := n in c.
Definition node_lineno (n : ast) : option Z := let 'Node _ l _ _ := n in l.
Definition node_type_none (n : ast) : bool := let 'Node _ _ b _ := n in b.
Definition node_children (n : ast) : list ast := let 'Node _ _ _ cs := n in cs.

Fixpoint size (n : ast) : nat :=
  match n with
  | Node _ _ _ cs => S (list_sum (map size cs))
  end.

Definition queue_size (todo : list ast) : nat := list_sum (map size todo).

(** [ast.walk]: breadth first, with the queue [todo] of the nodes still to
    visit. *)
Equations? walk_queue (todo : list ast) : list ast by wf (queue_size todo) lt :=
  walk_queue [] := [];
  walk_queue (n :: rest) := n :: walk_queue (rest ++ node_children n).
Proof.
  unfold queue_size. destruct n as [c l b cs]. simpl.
  rewrite map_app, list_sum_app. lia.
Qed.

Definition walk (tree : ast) : list ast := walk_queue [tree].

(** [sum(isinstance(n, cls) for n in ast.walk(tree))]. *)
Definition count_class (cls : string) (tree : ast) : Z :=
  Z.of_nat (length (filter (fun n => node_cls n = cls) (walk tree))).

(** The [SyntaxError] that [ast.parse] raised: [str(se)], [se.lineno] and
    [se.offset]. *)
Record SyntaxError := {
  se_str : string;
  se_lineno : option Z;
  se_offset : option Z;
}.

(** What [ast.parse(code)] does: it returns a tree, raises a [SyntaxError]
    (or a subclass of it), or raises something else. *)
Inductive parse_result :=
| ParseOk (tree : ast)
| ParseSyntaxError (se : SyntaxError)
| ParseRaise (e : exn).

(** The interpreter and its surroundings: the parser, and the text of the
    optional AI review ([None] when no key is set, the client is missing,
    the call raises or the answer is empty). *)
Record PyEnv := {
  ast_parse : str -> parse_result;
  ai_review_text : str -> option string;
}.

(** The value stored under "syntax_error". *)
Record syntax_error_info := {
  msg : string;
  lineno : option Z;
  offset : option Z;
}.

(** An entry of the list under "notes": its "type" and its "lines". *)
Inductive note :=
| NoteTodos (lines : list Z)            (* "todos" *)
| NoteLongLines (lines : list Z)        (* "long_lines" *)
| NoteBareExcept (lines : list (option Z)).  (* "bare_except" *)

(** The dictionary [results]; the key "ai_review" is present when
    [ai_review] is not [None]. *)
Record results := {
  syntax_error : option syntax_error_info;
  metrics : gmap string Z;
  notes : list note;
  ai_review : option string;
}.

Definition has_todo (l : str) : bool :=
  contains (lit "TODO") l || contains (lit "FIXME") l.

Definition is_long (l : str) : bool := (120 <? Z.of_nat (length l))%Z.

Definition is_bare_except (n : ast) : bool :=
  String.eqb (node_cls n) "ExceptHandler" && node_type_none n.

(** [notes.append(...)] guarded by [if lines:]. *)
Definition add_note {A} (mk : list A -> note) (lines : list A)
    (notes : list note) : list note :=
  match lines with
  | [] => notes
  | _ => notes ++ [mk lines]
  end.

(** [analyze_code(code)]. *)
Definition analyze_code (E : PyEnv) (code : str) : result results :=
  match ast_parse E code with
  | ParseRaise e => Raise e
  | ParseSyntaxError se =>
      Return {| syntax_error := Some {| msg := se_str se;
                                        lineno := se_lineno se;
                                        offset := se_offset se |};
                metrics := ∅; notes := []; ai_review := None |}
  | ParseOk tree =>
      let lines := splitlines code in
      let metrics :=
        <["classes" := count_class "ClassDef" tree]>
          (<["functions" := count_class "FunctionDef" tree]>
             (<["lines" := Z.of_nat (length lines)]> ∅)) in
      let todos := line_numbers has_todo 0 lines in
      let long_lines := line_numbers is_long 0 lines in
      let bare_except_lines :=
        map node_lineno (filter (fun n => is_bare_except n = true) (walk tree)) in
      let notes :=
        add_note NoteBareExcept bare_except_lines
          (add_note NoteLongLines long_lines (add_note NoteTodos todos [])) in
      Return {| syntax_error := None; metrics := metrics; notes := notes;
                ai_review := ai_review_text E code |}
  end.

(** ** A sample parser *)

(** A stand-in for [ast.parse] on three inputs: an unclosed parenthesis, a
    function with a bare [except], and a string with a null character. *)
Definition sample_parse (code : str) : parse_result :=
  if decide (code = lit "(") then
    ParseSyntaxError {| se_str := "'(' was never closed (<unknown>, line 1)";
                        se_lineno := Some 1%Z; se_offset := Some 1%Z |}
  else if contains [0%N] code then
    ParseRaise (Exn "ValueError" "source code string cannot contain null bytes")
  else
    ParseOk
      (Node "Module" None false
         [Node "FunctionDef" (Some 1%Z) false
            [Node "arguments" None false [];
             Node "Try" (Some 2%Z) false
               [Node "Pass" (Some 3%Z) false [];
                Node "ExceptHandler" (Some 4%Z) true
                  [Node "Pass" (Some 5%Z) false []]]]]).

Definition sample_env : PyEnv :=
  {| ast_parse := sample_parse; ai_review_text := fun _ => None |}.

Definition sample_code : str :=
  lit "def f():" ++ [10%N] ++ lit " try:" ++ [10%N] ++ lit "  pass  # TODO" ++
  [13%N; 10%N] ++ lit " except:" ++ [10%N] ++ lit "  pass" ++ [10%N].

(** Every node of a tree, the root first and then the nodes of each child
    in turn. *)
Fixpoint nodes (n : ast) : list ast :=
  match n with
  | Node _ _ _ cs => n :: concat (map nodes cs)
  end.

(** Whether the "lines" of a note are an empty list. *)
Definition note_is_empty (n : note) : bool :=
  match n with
  | NoteTodos [] | NoteLongLines [] | NoteBareExcept [] => true
  | _ => false
  end.

End Analyzer.

(** * Part V: the HTTP handlers of [src/api.py] *)

Module App.
Import Py Bucket Camera Analyzer.

(** The routes of the application, each with what the environment decides
    during the call: whether the device opens, and what a pending
    [cap.read] returns. *)
Inductive endpoint :=
| Health
| Analyze (code : str)
| CameraStart (open_ok : bool)
| CameraPause
| CameraResume (open_ok : bool)
| CameraStop (inp : bool * ndarray)
| CameraFrame.

(** The body of a response. *)
Inductive body :=
| JsonStatus (status : string)     (* {"status": ...} *)
| JsonDetail (detail : string)     (* {"detail": ...} *)
| JsonResults (r : results)        (* the dictionary of [analyze_code] *)
| Image (frame : bytes) (media_type : string).

(** A response with its status code, or an exception no handler caught. *)
Inductive reply := Reply (code : Z) (b : body) | Unhandled (e : exn).

(** The module-level state: [_buckets] and [camera]. *)
Record app := {
  app_buckets : buckets;
  app_camera : world;
}.

(** A handler that awaits an operation of the manager and answers with a
    status. *)
Definition answer (status : string) (r : result unit * world) : reply * world :=
  match r with
  | (Return _, w) => (Reply 200 (JsonStatus status), w)
  | (Raise e, w) => (Unhandled e, w)
  end.

(** The route handlers; [None] when the call does not return. *)
Definition call_next (L : Libs) (E : PyEnv) (ep : endpoint) (w : world)
  : option (reply * world) :=
  match ep with
  | Health => Some (Reply 200 (JsonStatus "ok"), w)
  | Analyze code =>
      match analyze_code E code with
      | Return r => Some (Reply 200 (JsonResults r), w)
      | Raise e => Some (Unhandled e, w)
      end
  | CameraStart o => Some (answer "started" (start L o w))
  | CameraPause => Some (answer "paused" (pause w))
  | CameraResume o => Some (answer "resumed" (resume L o w))
  | CameraStop inp => answer "stopped" <$> stop L inp w
  | CameraFrame =>
      match camera_frame L w with
      | Http200 frame media => Some (Reply 200 (Image frame media), w)
      | Http404 detail => Some (Reply 404 (JsonDetail detail), w)
      | FrameRaises e => Some (Unhandled e, w)
      end
  end.

(** A request through [rate_limit_middleware] to its handler. *)
Definition handle (rnd : Q -> Q) (L : Libs) (E : PyEnv)
    (hdr : option string) (t0 t1 : Q) (ep : endpoint) (a : app)
  : option (reply * app) :=
  match rate_limit_middleware rnd (app_buckets a) hdr t0 t1 with
  | (Gate400, bs) =>
      Some (Reply 400 (JsonDetail "x-user-id header required"),
            {| app_buckets := bs; app_camera := app_camera a |})
  | (Gate429, bs) =>
      Some (Reply 429 (JsonDetail "rate limit exceeded"),
            {| app_buckets := bs; app_camera := app_camera a |})
  | (GatePass, bs) =>
      match call_next L E ep (app_camera a) with
      | Some (r, w) => Some (r, {| app_buckets := bs; app_camera := w |})
      | None => None
      end
  end.

End App.

(** * Properties *)

(** ** The token bucket *)

Module BucketFacts.
Import Bucket.
Local Open Scope Q_scope.

Lemma round_grid_rounding : rounding round_grid.
Proof.
  split.
  - intros x y Hxy. unfold round_grid.
    assert (Qfloor (x * 1024) <= Qfloor (y * 1024))%Z
      by (apply Qfloor_resp_le; lra).
    unfold Qle; cbn [Qnum Qden]. lia.
  - reflexivity.
Qed.

Section ConsumeFacts.
Variable rnd : Q -> Q.
Hypothesis Hrnd : rounding rnd.

Lemma rnd_nonneg x : 0 <= x -> 0 <= rnd x.
Proof.
  intros Hx. rewrite <- (rnd_zero rnd Hrnd). now apply rnd_mono.
Qed.

Lemma py_min_le_l a b : py_min a b <= a.
Proof.
  unfold py_min. destruct (b ?= a) eqn:E; try lra.
  apply Qlt_alt in E. lra.
Qed.

Lemma py_min_nonneg a b : 0 <= a -> 0 <= b -> 0 <= py_min a b.
Proof. intros Ha Hb. unfold py_min. now destruct (b ?= a). Qed.

(** The refilled amount stays within the bounds. *)
Lemma refill_bounds b now :
  0 <= rate b -> bucket_inv b -> timestamp b <= now ->
  0 <= refill rnd b now /\ refill rnd b now <= capacity b.
Proof.
  intros Hr [Ht Hc] Hnow. unfold refill. split; [|apply py_min_le_l].
  apply py_min_nonneg; [lra|].
  unfold fadd, fmul, fsub. apply rnd_nonneg.
  assert (0 <= rnd (now - timestamp b)) by (apply rnd_nonneg; lra).
  assert (0 <= rnd (rnd (now - timestamp b) * rate b)).
  { apply rnd_nonneg. now apply Qmult_le_0_compat. }
  lra.
Qed.

Lemma consume_cases b now n :
  (n <= refill rnd b now /\
   consume rnd b now n =
     (true, {| rate := rate b; capacity := capacity b;
               tokens := fsub rnd (refill rnd b now) n; timestamp := now |}))
  \/ (refill rnd b now < n /\
      consume rnd b now n =
        (false, {| rate := rate b; capacity := capacity b;
                   tokens := refill rnd b now; timestamp := now |})).
Proof.
  unfold consume. destruct (refill rnd b now ?= n) eqn:E.
  - left. apply Qeq_alt in E. split; [lra | reflexivity].
  - right. apply Qlt_alt in E. now split.
  - left. apply Qgt_alt in E. split; [lra | reflexivity].
Qed.

Lemma consume_fields b now n :
  rate (snd (consume rnd b now n)) = rate b /\
  capacity (snd (consume rnd b now n)) = capacity b /\
  timestamp (snd (consume rnd b now n)) = now.
Proof.
  destruct (consume_cases b now n) as [[_ ->]|[_ ->]]; now simpl.
Qed.

(** One call preserves the invariant. *)
Lemma consume_inv b now n :
  rnd (capacity b) == capacity b -> 0 <= rate b -> 0 <= n ->
  bucket_inv b -> timestamp b <= now ->
  bucket_inv (snd (consume rnd b now n)).
Proof.
  intros Hcap Hr Hn Hb Hnow.
  destruct (refill_bounds b now Hr Hb Hnow) as [H0 Hc].
  destruct (consume_cases b now n) as [[Hle ->]|[Hlt ->]];
    unfold bucket_inv; simpl; [|now split].
  unfold fsub. split.
  - apply rnd_nonneg. lra.
  - rewrite <- Hcap. apply rnd_mono; [exact Hrnd | lra].
Qed.

(** The invariant along a whole sequence of calls. *)
Lemma consume_trace_inv b calls :
  rnd (capacity b) == capacity b -> 0 <= rate b ->
  bucket_inv b -> clock_mono (timestamp b) calls ->
  Forall (fun c => 0 <= snd c) calls ->
  Forall bucket_inv (consume_trace rnd b calls).
Proof.
  intros Hcap Hr Hb Hclk Hn. revert b Hcap Hr Hb Hclk.
  induction Hn as [|[now n] rest Hn0 _ IH]; intros b Hcap Hr Hb Hclk;
    simpl; [constructor|].
  destruct Hclk as [Hnow Hclk]. simpl in Hn0.
  destruct (consume_fields b now n) as (Er & Ec & Et).
  constructor; [now apply consume_inv|].
  apply IH.
  - now rewrite Ec.
  - now rewrite Er.
  - now apply consume_inv.
  - now rewrite Et.
Qed.
End ConsumeFacts.

(** Every bucket of [_buckets] keeps the invariant under the middleware. *)
Lemma rate_limit_middleware_inv rnd bs hdr last t0 t1 :
  rounding rnd -> rnd 5 == 5 ->
  buckets_ok last bs -> last <= t0 -> t0 <= t1 ->
  buckets_ok t1 (snd (rate_limit_middleware rnd bs hdr t0 t1)).
Proof.
  intros Hrnd H5 Hbs H0 H1.
  assert (Hweak : buckets_ok t1 bs).
  { intros k b Hk. destruct (Hbs k b Hk) as (? & ? & ? & ?).
    split; [assumption|]. split; [lra|]. now split. }
  unfold rate_limit_middleware. destruct hdr as [u|]; [|exact Hweak].
  destruct (String.eqb u ""); [exact Hweak|].
  assert (Hget : exists b bs1, get_bucket_for_user bs u t0 = (b, bs1) /\
            buckets_ok t1 bs1 /\ bucket_inv b /\ timestamp b <= t1 /\
            rate b = 1 /\ capacity b = 5).
  { unfold get_bucket_for_user. destruct (bs !! u) as [b|] eqn:E.
    - exists b, bs. destruct (Hbs u b E) as (? & ? & ? & ?).
      split; [reflexivity|]. split; [exact Hweak|].
      split; [assumption|]. split; [lra|]. now split.
    - eexists _, _. split; [reflexivity|].
      assert (Hd : bucket_inv (default_bucket t0) /\
                   timestamp (default_bucket t0) <= t1 /\
                   rate (default_bucket t0) = 1 /\
                   capacity (default_bucket t0) = 5).
      { unfold bucket_inv; simpl. split; [split; lra|].
        split; [lra|]. now split. }
      split; [|exact Hd].
      apply map_Forall_insert_2; [exact Hd | exact Hweak]. }
  destruct Hget as (b & bs1 & -> & Hbs1 & Hb & Ht & Hr & Hc).
  destruct (consume rnd b t1 1) as [ok b1] eqn:Ec.
  assert (Hb1 : bucket_inv b1 /\ timestamp b1 <= t1 /\
                rate b1 = 1 /\ capacity b1 = 5).
  { destruct (consume_fields rnd b t1 1) as (Er & Ecap & Et).
    pose proof (consume_inv rnd Hrnd b t1 1) as Hi.
    rewrite Ec in *; simpl in *.
    rewrite Er, Ecap, Et. split; [|split; [lra | now split]].
    apply Hi; rewrite ?Hc, ?Hr; try assumption; lra. }
  destruct ok; simpl; apply map_Forall_insert_2; assumption.
Qed.

(** The invariant of every bucket of the dictionary along a sequence of
    requests. *)
Lemma serve_trace_inv rnd reqs : forall bs last,
  rounding rnd -> rnd 5 == 5 ->
  buckets_ok last bs -> requests_mono last reqs ->
  Forall (map_Forall (fun _ b => bucket_inv b)) (serve_trace rnd bs reqs).
Proof.
  induction reqs as [|[[hdr t0] t1] rest IH]; intros bs last Hrnd H5 Hbs Hm;
    simpl; [constructor|].
  destruct Hm as (H0 & H1 & Hm).
  pose proof (rate_limit_middleware_inv rnd bs hdr last t0 t1 Hrnd H5 Hbs H0 H1)
    as Hbs1.
  constructor.
  - intros u b Hu. exact (proj1 (Hbs1 u b Hu)).
  - now apply (IH _ t1).
Qed.

(** C7: a sequence of [consume] calls whose clock readings never go back
    keeps [0 <= tokens <= capacity] after every call.  This holds for the
    per-caller buckets -- every bucket of [_buckets] after each request the
    middleware serves, starting from the empty dictionary -- and for any
    bucket with a non-negative rate and calls for non-negative amounts.
    Each call first refills to [min(capacity, tokens + elapsed * rate)],
    which is at most the capacity, and takes the requested amount off
    exactly when the refilled value is at least that amount. *)
Theorem consume_keeps_tokens_within_capacity (rnd : Q -> Q) :
  rounding rnd ->
  (forall reqs last,
      rnd 5 == 5 -> requests_mono last reqs ->
      Forall (map_Forall (fun _ b => bucket_inv b)) (serve_trace rnd ∅ reqs)) /\
  (forall b calls,
      rnd (capacity b) == capacity b -> 0 <= rate b ->
      bucket_inv b -> clock_mono (timestamp b) calls ->
      Forall (fun c => 0 <= snd c) calls ->
      Forall bucket_inv (consume_trace rnd b calls)) /\
  (forall b now n,
      refill rnd b now =
        py_min (capacity b)
          (fadd rnd (tokens b) (fmul rnd (fsub rnd now (timestamp b)) (rate b)))
      /\ refill rnd b now <= capacity b
      /\ (n <= refill rnd b now ->
          fst (consume rnd b now n) = true /\
          tokens (snd (consume rnd b now n)) = fsub rnd (refill rnd b now) n)
      /\ (refill rnd b now < n ->
          fst (consume rnd b now n) = false /\
          tokens (snd (consume rnd b now n)) = refill rnd b now)).
Proof.
  intros Hrnd. split; [|split].
  - intros reqs last H5 Hm.
    apply (serve_trace_inv rnd reqs ∅ last Hrnd H5); [|exact Hm].
    intros u b Hu. now rewrite lookup_empty in Hu.
  - intros b calls. now apply consume_trace_inv.
  - intros b now n. split; [reflexivity|]. split; [apply py_min_le_l|].
    split; intros H; destruct (consume_cases rnd b now n) as [[H' ->]|[H' ->]];
      simpl; try (split; reflexivity); lra.
Qed.

(** The scenario of the rate limiter: a fresh default bucket, six calls in
    one instant and a seventh a second later; and two callers served by the
    middleware. *)
Lemma consume_keeps_tokens_within_capacity_witness :
  let calls := [(0, 1); (0, 1); (0, 1); (0, 1); (0, 1); (0, 1); (1, 1)] in
  let reqs : list request :=
    [(Some "ann"%string, 0, 0); (Some "bob"%string, 0, 1 # 2);
     (Some "ann"%string, 1, 1)] in
  Forall bucket_inv (consume_trace round_grid (default_bucket 0) calls) /\
  fst (consume_all round_grid (default_bucket 0) calls)
    = [true; true; true; true; true; false; true] /\
  Forall (map_Forall (fun _ b => bucket_inv b)) (serve_trace round_grid ∅ reqs).
Proof.
  intros calls reqs.
  destruct (consume_keeps_tokens_within_capacity round_grid round_grid_rounding)
    as (Hmw & Hseq & _).
  split; [|split; [reflexivity|]].
  - apply Hseq.
    + reflexivity.
    + simpl. lra.
    + split; simpl; lra.
    + simpl. repeat split; lra.
    + repeat constructor; simpl; lra.
  - apply (Hmw reqs 0); [reflexivity|].
    simpl. repeat split; lra.
Defined.


(** ** Further properties of the token bucket *)

Lemma rnd_proper rnd x y : rounding rnd -> x == y -> rnd x == rnd y.
Proof.
  intros Hrnd E. apply Qle_antisym; apply (rnd_mono rnd Hrnd); rewrite E; lra.
Qed.

Lemma py_min_le_r a b : py_min a b <= b.
Proof.
  unfold py_min. destruct (b ?= a) eqn:E; try lra.
  - apply Qeq_alt in E. lra.
  - apply Qgt_alt in E. lra.
Qed.

Lemma inject_succ (k : nat) :
  inject_Z (Z.of_nat (S k)) == inject_Z (Z.of_nat k) + 1.
Proof.
  rewrite Nat2Z.inj_succ. unfold Z.succ. rewrite inject_Z_plus. reflexivity.
Qed.

Lemma inject_nat_nonneg (k : nat) : 0 <= inject_Z (Z.of_nat k).
Proof. change 0 with (inject_Z 0). rewrite <- Zle_Qle. lia. Qed.

(** With no time elapsed, a whole number of tokens is refilled to itself. *)
Lemma refill_same_instant rnd b (k : nat) :
  rounding rnd -> rnd (inject_Z (Z.of_nat k)) == inject_Z (Z.of_nat k) ->
  tokens b == inject_Z (Z.of_nat k) -> tokens b <= capacity b ->
  refill rnd b (timestamp b) == inject_Z (Z.of_nat k).
Proof.
  intros Hrnd Hint Ht Hc. unfold refill, fadd, fmul, fsub.
  assert (E0 : rnd (timestamp b - timestamp b) == 0).
  { rewrite <- (rnd_zero rnd Hrnd). apply rnd_proper; [assumption | lra]. }
  assert (E1 : rnd (rnd (timestamp b - timestamp b) * rate b) == 0).
  { rewrite <- (rnd_zero rnd Hrnd). apply rnd_proper; [assumption|].
    rewrite E0. lra. }
  assert (E2 : rnd (tokens b + rnd (rnd (timestamp b - timestamp b) * rate b))
               == inject_Z (Z.of_nat k)).
  { rewrite <- Hint. apply rnd_proper; [assumption|].
    rewrite E1, Ht. lra. }
  pose proof (py_min_le_l (capacity b)
    (rnd (tokens b + rnd (rnd (timestamp b - timestamp b) * rate b)))) as Hl.
  pose proof (py_min_le_r (capacity b)
    (rnd (tokens b + rnd (rnd (timestamp b - timestamp b) * rate b)))) as Hr.
  unfold py_min in *.
  destruct (rnd (tokens b + rnd (rnd (timestamp b - timestamp b) * rate b))
            ?= capacity b) eqn:E; try exact E2.
  - apply Qeq_alt in E. rewrite <- E. exact E2.
  - apply Qgt_alt in E. rewrite E2 in E. rewrite Ht in Hc. lra.
Qed.

(** X1: a burst.  When a bucket holds a whole number [k] of tokens and
    floats are exact on the whole numbers up to [k], then of [m] calls for
    one token at the instant of the bucket's timestamp the first [k] return
    [True] and all later ones return [False], whatever the rate. *)
Theorem burst_grants_exactly_the_tokens
    (rnd : Q -> Q) (m k : nat) (b : TokenBucket) :
  rounding rnd ->
  (forall j : nat, (j <= k)%nat ->
     rnd (inject_Z (Z.of_nat j)) == inject_Z (Z.of_nat j)) ->
  tokens b == inject_Z (Z.of_nat k) -> tokens b <= capacity b ->
  fst (consume_all rnd b (repeat (timestamp b, 1) m))
  = repeat true (Nat.min m k) ++ repeat false (m - k).
Proof.
  intros Hrnd. revert k b.
  induction m as [|m IH]; intros k b Hint Ht Hc; [reflexivity|].
  pose proof (refill_same_instant rnd b k Hrnd (Hint k (le_n _)) Ht Hc) as Hre.
  cbn [repeat consume_all].
  destruct (consume_cases rnd b (timestamp b) 1) as [[Hle E]|[Hlt E]];
    rewrite E.
  - (* a token is there *)
    destruct k as [|k].
    { rewrite Hre in Hle. change (inject_Z (Z.of_nat 0)) with 0 in Hle. lra. }
    set (b1 := {| rate := rate b; capacity := capacity b;
                  tokens := fsub rnd (refill rnd b (timestamp b)) 1;
                  timestamp := timestamp b |}).
    assert (Ht1 : tokens b1 == inject_Z (Z.of_nat k)).
    { simpl. unfold fsub. rewrite <- (Hint k) by lia.
      apply rnd_proper; [assumption|]. rewrite Hre, inject_succ. lra. }
    assert (Hc1 : tokens b1 <= capacity b1).
    { rewrite Ht1. simpl. rewrite Ht, inject_succ in Hc. lra. }
    assert (Hint1 : forall j : nat, (j <= k)%nat ->
              rnd (inject_Z (Z.of_nat j)) == inject_Z (Z.of_nat j))
      by (intros j Hj; apply Hint; lia).
    specialize (IH k b1 Hint1 Ht1 Hc1).
    change (timestamp b1) with (timestamp b) in IH.
    destruct (consume_all rnd b1 (repeat (timestamp b, 1) m)) as [oks b2].
    simpl in IH. simpl. now rewrite IH.
  - (* the bucket is empty *)
    assert (k = 0)%nat as ->.
    { rewrite Hre in Hlt. destruct k; [reflexivity|].
      rewrite inject_succ in Hlt. pose proof (inject_nat_nonneg k). lra. }
    set (b1 := {| rate := rate b; capacity := capacity b;
                  tokens := refill rnd b (timestamp b);
                  timestamp := timestamp b |}).
    assert (Ht1 : tokens b1 == inject_Z (Z.of_nat 0)) by exact Hre.
    assert (Hc1 : tokens b1 <= capacity b1).
    { simpl. apply py_min_le_l. }
    specialize (IH 0%nat b1 Hint Ht1 Hc1).
    change (timestamp b1) with (timestamp b) in IH.
    destruct (consume_all rnd b1 (repeat (timestamp b, 1) m)) as [oks b2].
    simpl in IH. simpl. rewrite IH. rewrite Nat.min_0_r, Nat.sub_0_r.
    reflexivity.
Qed.

Lemma round_grid_exact_on_integers (z : Z) : round_grid (inject_Z z) == inject_Z z.
Proof.
  unfold round_grid.
  assert (E : inject_Z z * 1024 == inject_Z (z * 1024))
    by (rewrite inject_Z_mult; reflexivity).
  rewrite (Qfloor_comp _ _ E), Qfloor_Z.
  unfold Qeq, inject_Z; simpl. lia.
Qed.

Lemma burst_grants_exactly_the_tokens_witness :
  fst (consume_all round_grid (default_bucket 7) (repeat (7, 1) 8))
  = [true; true; true; true; true; false; false; false].
Proof.
  apply (burst_grants_exactly_the_tokens round_grid 8 5 (default_bucket 7)).
  - exact round_grid_rounding.
  - intros j _. apply round_grid_exact_on_integers.
  - reflexivity.
  - simpl. lra.
Defined.


(** X2: after an idle time long enough for the refill to reach the
    capacity, the bucket is full again whatever it held, and a call for any
    amount up to the capacity returns [True]. *)
Theorem idle_bucket_is_full_again
    (rnd : Q -> Q) (b : TokenBucket) (now n : Q) :
  rounding rnd -> rnd (capacity b) == capacity b -> 0 <= tokens b ->
  capacity b <= fmul rnd (fsub rnd now (timestamp b)) (rate b) ->
  n <= capacity b ->
  refill rnd b now = capacity b /\ fst (consume rnd b now n) = true.
Proof.
  intros Hrnd Hcap Ht Hidle Hn.
  assert (Hfull : refill rnd b now = capacity b).
  { unfold refill, py_min.
    set (x := fadd rnd (tokens b) (fmul rnd (fsub rnd now (timestamp b)) (rate b))).
    assert (Hx : capacity b <= x).
    { unfold x, fadd. rewrite <- Hcap at 1. apply (rnd_mono rnd Hrnd). lra. }
    destruct (x ?= capacity b) eqn:E; try reflexivity.
    apply Qlt_alt in E. lra. }
  split; [exact Hfull|].
  destruct (consume_cases rnd b now n) as [[_ ->]|[Hlt _]]; [reflexivity|].
  rewrite Hfull in Hlt. lra.
Qed.

Lemma idle_bucket_is_full_again_witness :
  let b := snd (consume_all round_grid (default_bucket 0) (repeat (0, 1) 5)) in
  tokens b == 0 /\ refill round_grid b 9 = 5 /\
  fst (consume round_grid b 9 5) = true.
Proof.
  intros b. split; [reflexivity|].
  apply (idle_bucket_is_full_again round_grid b 9 5).
  - exact round_grid_rounding.
  - reflexivity.
  - vm_compute. discriminate.
  - vm_compute. discriminate.
  - vm_compute. discriminate.
Defined.

Lemma round_near_rounding : rounding round_near.
Proof.
  split.
  - intros x y Hxy. unfold round_near.
    assert (Qfloor (x * 1024 + (1 # 2)) <= Qfloor (y * 1024 + (1 # 2)))%Z
      by (apply Qfloor_resp_le; lra).
    unfold Qle; cbn [Qnum Qden]. lia.
  - reflexivity.
Qed.

Lemma round_near_overshoot x : round_near x <= x + (1 # 2048).
Proof.
  unfold round_near. pose proof (Qfloor_le (x * 1024 + (1 # 2))) as H.
  assert (E : Qfloor (x * 1024 + (1 # 2)) # 1024
              == inject_Z (Qfloor (x * 1024 + (1 # 2))) / 1024).
  { unfold Qeq, inject_Z, Qdiv, Qmult, Qinv; simpl. lia. }
  rewrite E. apply Qle_shift_div_r; lra.
Qed.

Lemma last_clock_ge (calls : list (Q * Q)) : forall last,
  clock_mono last calls -> last <= last_clock last calls.
Proof.
  induction calls as [|[now n] rest IH]; intros last H; simpl; [lra|].
  destruct H as [H1 H2]. specialize (IH now H2). lra.
Qed.

(** One call hands out no more than what was there and what the elapsed
    time refilled, up to the rounding of its four operations. *)
Lemma consume_budget rnd b now n (e M T : Q) :
  rounding rnd -> rnd (capacity b) == capacity b -> 0 <= e ->
  (forall x, 0 <= x -> x <= M -> rnd x <= x + e) ->
  0 <= rate b -> bucket_inv b -> timestamp b <= now -> 0 <= n ->
  now - timestamp b <= T -> T <= M ->
  capacity b + rate b * (T + e) + e <= M ->
  tokens (snd (consume rnd b now n))
    + (if fst (consume rnd b now n) then n else 0)
  <= tokens b + rate b * (now - timestamp b) + (rate b + 3) * e.
Proof.
  intros Hrnd Hcap He Hover Hr [Ht Hc] Hnow Hn HT HM Hbig.
  set (delta := now - timestamp b) in *.
  assert (Hd0 : 0 <= rnd delta) by (apply rnd_nonneg; [assumption | unfold delta; lra]).
  assert (Hd : rnd delta <= delta + e)
    by (apply Hover; unfold delta in *; lra).
  assert (Hre : 0 <= rate b * e) by now apply Qmult_le_0_compat.
  assert (HrT : rate b * (T + e) == rate b * T + rate b * e) by ring.
  assert (Hm0 : 0 <= rnd delta * rate b) by now apply Qmult_le_0_compat.
  assert (Hm1 : rnd delta * rate b <= rate b * delta + rate b * e).
  { assert (rnd delta * rate b <= (delta + e) * rate b)
      by (apply Qmult_le_compat_r; assumption).
    assert ((delta + e) * rate b == rate b * delta + rate b * e) by ring.
    lra. }
  assert (Hm2 : rate b * delta <= rate b * T).
  { rewrite !(Qmult_comm (rate b)). apply Qmult_le_compat_r; assumption. }
  assert (Hp0 : 0 <= rnd (rnd delta * rate b)) by now apply rnd_nonneg.
  assert (Hp : rnd (rnd delta * rate b) <= rnd delta * rate b + e)
    by (apply Hover; lra).
  assert (Hx : rnd (tokens b + rnd (rnd delta * rate b))
               <= tokens b + rnd (rnd delta * rate b) + e)
    by (apply Hover; lra).
  assert (Hrefill : refill rnd b now
                    <= tokens b + rate b * delta + (rate b + 2) * e).
  { unfold refill. eapply Qle_trans; [apply py_min_le_r|].
    unfold fadd, fmul, fsub. fold delta.
    assert ((rate b + 2) * e == rate b * e + e + e) by ring. lra. }
  assert (Hrc : refill rnd b now <= capacity b) by apply py_min_le_l.
  assert (H3 : (rate b + 3) * e == (rate b + 2) * e + e) by ring.
  destruct (consume_cases rnd b now n) as [[Hle ->]|[_ ->]]; simpl.
  - unfold fsub.
    assert (rnd (refill rnd b now - n) <= refill rnd b now - n + e)
      by (apply Hover; lra).
    lra.
  - lra.
Qed.

(** X3: the rate limit.  When every rounding overshoots by at most [e] on
    the values up to [M] that occur, a bucket with a non-negative rate that
    is within its bounds hands out, over any sequence of calls for
    non-negative amounts whose clock readings never go back, at most its
    capacity plus rate times the time [T] from its timestamp to the last
    call, plus [(rate + 3) * e] for each call. *)
Theorem granted_at_most_capacity_plus_refill
    (rnd : Q -> Q) (b : TokenBucket) (calls : list (Q * Q)) (e M : Q) :
  rounding rnd -> rnd (capacity b) == capacity b -> 0 <= e ->
  (forall x, 0 <= x -> x <= M -> rnd x <= x + e) ->
  0 <= rate b -> bucket_inv b -> clock_mono (timestamp b) calls ->
  Forall (fun c => 0 <= snd c) calls ->
  last_clock (timestamp b) calls - timestamp b <= M ->
  capacity b
    + rate b * (last_clock (timestamp b) calls - timestamp b + e) + e <= M ->
  granted rnd b calls
  <= capacity b + rate b * (last_clock (timestamp b) calls - timestamp b)
     + inject_Z (Z.of_nat (length calls)) * ((rate b + 3) * e).
Proof.
  intros Hrnd Hcap He Hover Hr Hb Hclk Hn HT HM.
  assert (Hgen : forall T, T <= M -> forall calls b,
    rnd (capacity b) == capacity b -> 0 <= rate b -> bucket_inv b ->
    clock_mono (timestamp b) calls -> Forall (fun c => 0 <= snd c) calls ->
    last_clock (timestamp b) calls - timestamp b <= T ->
    capacity b + rate b * (T + e) + e <= M ->
    granted rnd b calls
    <= tokens b + rate b * (last_clock (timestamp b) calls - timestamp b)
       + inject_Z (Z.of_nat (length calls)) * ((rate b + 3) * e)).
  { clear b calls Hcap Hr Hb Hclk Hn HM HT. intros T HT calls.
    induction calls as [|[now n] rest IH];
      intros b Hcap Hr Hb Hclk Hn HTb HM.
    - cbn [granted last_clock length]. destruct Hb.
      change (inject_Z (Z.of_nat 0)) with 0.
      assert (rate b * (timestamp b - timestamp b) == 0) by ring. lra.
    - cbn [granted last_clock length] in *.
      destruct Hclk as [Hnow Hclk]. apply Forall_cons in Hn as [Hn0 Hn].
      simpl in Hn0.
      pose proof (last_clock_ge rest now Hclk) as Hlast.
      pose proof (consume_budget rnd b now n e M T Hrnd Hcap He Hover Hr Hb
                    Hnow Hn0) as Hstep.
      pose proof (consume_inv rnd Hrnd b now n Hcap Hr Hn0 Hb Hnow) as Hb1.
      destruct (consume_fields rnd b now n) as (Er & Ec & Et).
      destruct (consume rnd b now n) as [ok b1]. simpl in *.
      specialize (IH b1). rewrite Er, Ec, Et in IH.
      assert (HTb1 : last_clock now rest - now <= T) by lra.
      specialize (IH Hcap Hr Hb1 Hclk Hn HTb1 HM).
      assert (Hstep' : tokens b1 + (if ok then n else 0)
                       <= tokens b + rate b * (now - timestamp b)
                          + (rate b + 3) * e)
        by (apply Hstep; lra).
      rewrite inject_succ.
      assert (Ering : rate b * (last_clock now rest - timestamp b)
                      == rate b * (now - timestamp b)
                         + rate b * (last_clock now rest - now)) by ring.
      assert (Ering2 : (inject_Z (Z.of_nat (length rest)) + 1)
                       * ((rate b + 3) * e)
                       == inject_Z (Z.of_nat (length rest)) * ((rate b + 3) * e)
                          + (rate b + 3) * e) by ring.
      lra. }
  specialize (Hgen _ HT calls b Hcap Hr Hb Hclk Hn (Qle_refl _) HM).
  destruct Hb. lra.
Qed.

Lemma granted_at_most_capacity_plus_refill_witness :
  let calls := [(0, 1); (0, 1); (0, 1); (0, 1); (0, 1); (0, 1); (1, 1); (1, 1)] in
  granted round_near (default_bucket 0) calls == 6 /\
  granted round_near (default_bucket 0) calls
  <= 5 + 1 * (1 - 0) + 8 * ((1 + 3) * (1 # 2048)).
Proof.
  intros calls. split; [reflexivity|].
  apply (granted_at_most_capacity_plus_refill round_near (default_bucket 0)
           calls (1 # 2048) 100).
  - exact round_near_rounding.
  - reflexivity.
  - lra.
  - intros x _ _. apply round_near_overshoot.
  - simpl. lra.
  - split; simpl; lra.
  - simpl. repeat split; lra.
  - repeat constructor; simpl; lra.
  - simpl. lra.
  - simpl. lra.
Defined.

(** A 400 of the middleware leaves the dictionary as it is. *)
Lemma middleware_400_keeps_buckets rnd bs hdr t0 t1 :
  fst (rate_limit_middleware rnd bs hdr t0 t1) = Gate400 ->
  snd (rate_limit_middleware rnd bs hdr t0 t1) = bs.
Proof.
  unfold rate_limit_middleware. destruct hdr as [u|]; [|reflexivity].
  destruct (String.eqb u ""); [reflexivity|].
  destruct (get_bucket_for_user bs u t0) as [b bs1].
  destruct (consume rnd b t1 1) as [[|] b1]; discriminate.
Qed.

(** X4: what the middleware touches.  A request without a user id, or with
    an empty one, is answered 400 and leaves the dictionary as it is; a
    request of user [u] leaves the bucket of every other user as it is and
    leaves a bucket for [u] behind. *)
Theorem middleware_touches_only_the_caller
    (rnd : Q -> Q) (bs : buckets) (hdr : option string) (t0 t1 : Q) :
  let bs' := snd (rate_limit_middleware rnd bs hdr t0 t1) in
  match hdr with
  | None => fst (rate_limit_middleware rnd bs hdr t0 t1) = Gate400 /\ bs' = bs
  | Some u =>
      if decide (u = ""%string) then
        fst (rate_limit_middleware rnd bs hdr t0 t1) = Gate400 /\ bs' = bs
      else
        fst (rate_limit_middleware rnd bs hdr t0 t1) <> Gate400 /\
        is_Some (bs' !! u) /\
        forall u', u' <> u -> bs' !! u' = bs !! u'
  end.
Proof.
  simpl. destruct hdr as [u|]; [|split; reflexivity].
  unfold rate_limit_middleware. destruct (decide (u = ""%string)) as [->|Hne].
  - split; reflexivity.
  - apply String.eqb_neq in Hne. rewrite Hne.
    unfold get_bucket_for_user.
    destruct (bs !! u) as [b|] eqn:E;
      destruct (consume rnd _ t1 1) as [[|] b1]; simpl;
      (split; [discriminate|]); (split; [rewrite lookup_insert_eq; eauto|]);
      intros u' Hu'; rewrite !lookup_insert_ne by congruence; reflexivity.
Qed.


Lemma middleware_touches_only_the_caller_witness :
  let bs := snd (rate_limit_middleware round_grid ∅ (Some "ann"%string) 0 0) in
  let bs' := snd (rate_limit_middleware round_grid bs (Some "bob"%string) 1 1) in
  bs' !! "ann"%string = bs !! "ann"%string /\ is_Some (bs' !! "bob"%string).
Proof.
  intros bs bs'.
  pose proof (middleware_touches_only_the_caller round_grid bs
                (Some "bob"%string) 1 1) as H.
  simpl in H. destruct H as (_ & Hb & Ho).
  split; [apply Ho; discriminate | exact Hb].
Defined.

(** X5: a bucket is created once per user.  [get_bucket_for_user] returns
    the stored bucket of a known user and leaves the dictionary as it is;
    for an unknown user it stores a full default bucket; either way the
    returned bucket is the one stored under the user afterwards, a second
    call returns that same bucket, and no other user's entry changes. *)
Theorem bucket_created_once (bs : buckets) (u : string) (t t' : Q) :
  let b := fst (get_bucket_for_user bs u t) in
  let bs1 := snd (get_bucket_for_user bs u t) in
  bs1 !! u = Some b /\
  get_bucket_for_user bs1 u t' = (b, bs1) /\
  (forall u', u' <> u -> bs1 !! u' = bs !! u') /\
  match bs !! u with
  | Some b0 => b = b0 /\ bs1 = bs
  | None => b = default_bucket t
  end.
Proof.
  unfold get_bucket_for_user. destruct (bs !! u) as [b0|] eqn:E; simpl.
  - rewrite E. auto.
  - rewrite lookup_insert_eq. split; [reflexivity|]. split; [reflexivity|].
    split; [|reflexivity]. intros u' Hu'. now rewrite lookup_insert_ne.
Qed.

Lemma bucket_created_once_witness :
  let bs1 := snd (get_bucket_for_user ∅ "ann" 2) in
  get_bucket_for_user bs1 "ann" 9 = (default_bucket 2, bs1) /\
  bs1 !! "bob"%string = None.
Proof.
  intros bs1.
  destruct (bucket_created_once ∅ "ann" 2 9) as (_ & H2 & H3 & _).
  split; [exact H2|]. unfold bs1. rewrite H3 by discriminate. apply lookup_empty.
Defined.

(** Requests of one user at the instant of the timestamp of the user's
    bucket: [b] is the stored bucket, or the default one about to be
    created. *)
Lemma serve_same_instant rnd u t (m : nat) : forall (k : nat) bs b,
  rounding rnd ->
  (forall j : nat, (j <= k)%nat ->
     rnd (inject_Z (Z.of_nat j)) == inject_Z (Z.of_nat j)) ->
  u <> ""%string ->
  bs !! u = Some b \/ (bs !! u = None /\ b = default_bucket t) ->
  timestamp b = t -> tokens b == inject_Z (Z.of_nat k) ->
  tokens b <= capacity b ->
  fst (serve rnd bs (repeat (Some u, t, t) m))
  = repeat GatePass (Nat.min m k) ++ repeat Gate429 (m - k).
Proof.
  induction m as [|m IH]; intros k bs b Hrnd Hint Hu Hb Hts Ht Hc;
    [reflexivity|].
  cbn [repeat serve]. unfold rate_limit_middleware.
  apply String.eqb_neq in Hu as Hu'. rewrite Hu'.
  assert (Hget : exists bs1, get_bucket_for_user bs u t = (b, bs1)).
  { unfold get_bucket_for_user. destruct Hb as [->|[-> ->]]; eauto. }
  destruct Hget as [bs1 ->].
  pose proof (refill_same_instant rnd b k Hrnd (Hint k (le_n _)) Ht Hc) as Hre.
  rewrite Hts in Hre.
  destruct (consume_cases rnd b t 1) as [[Hle E]|[Hlt E]]; rewrite E.
  - destruct k as [|k].
    { rewrite Hre in Hle. change (inject_Z (Z.of_nat 0)) with 0 in Hle. lra. }
    set (b1 := {| rate := rate b; capacity := capacity b;
                  tokens := fsub rnd (refill rnd b t) 1; timestamp := t |}).
    assert (Ht1 : tokens b1 == inject_Z (Z.of_nat k)).
    { simpl. unfold fsub. rewrite <- (Hint k) by lia.
      apply rnd_proper; [assumption|]. rewrite Hre, inject_succ. lra. }
    assert (Hc1 : tokens b1 <= capacity b1).
    { rewrite Ht1. simpl. rewrite Ht, inject_succ in Hc. lra. }
    assert (Hint1 : forall j : nat, (j <= k)%nat ->
              rnd (inject_Z (Z.of_nat j)) == inject_Z (Z.of_nat j))
      by (intros j Hj; apply Hint; lia).
    assert (Hb1 : <[u:=b1]> bs1 !! u = Some b1 \/
                  (<[u:=b1]> bs1 !! u = None /\ b1 = default_bucket t))
      by (left; apply lookup_insert_eq).
    specialize (IH k (<[u:=b1]> bs1) b1 Hrnd Hint1 Hu Hb1 eq_refl Ht1 Hc1).
    destruct (serve rnd (<[u:=b1]> bs1) (repeat (Some u, t, t) m)) as [gs bs2].
    simpl in IH. simpl. now rewrite IH.
  - assert (k = 0)%nat as ->.
    { rewrite Hre in Hlt. destruct k; [reflexivity|].
      rewrite inject_succ in Hlt. pose proof (inject_nat_nonneg k). lra. }
    set (b1 := {| rate := rate b; capacity := capacity b;
                  tokens := refill rnd b t; timestamp := t |}).
    assert (Hb1 : <[u:=b1]> bs1 !! u = Some b1 \/
                  (<[u:=b1]> bs1 !! u = None /\ b1 = default_bucket t))
      by (left; apply lookup_insert_eq).
    assert (Hc1 : tokens b1 <= capacity b1) by (simpl; apply py_min_le_l).
    specialize (IH 0%nat (<[u:=b1]> bs1) b1 Hrnd Hint Hu Hb1 eq_refl Hre Hc1).
    destruct (serve rnd (<[u:=b1]> bs1) (repeat (Some u, t, t) m)) as [gs bs2].
    simpl in IH. simpl. rewrite IH.
    now rewrite Nat.min_0_r, Nat.sub_0_r.
Qed.

(** X6: the burst of a new caller.  Of [m] requests that a user without a
    bucket sends in one instant, the first five pass the middleware and all
    later ones are answered 429 (floats being exact on 0, ..., 5). *)
Theorem new_caller_burst
    (rnd : Q -> Q) (bs : buckets) (u : string) (t : Q) (m : nat) :
  rounding rnd ->
  (forall j : nat, (j <= 5)%nat ->
     rnd (inject_Z (Z.of_nat j)) == inject_Z (Z.of_nat j)) ->
  u <> ""%string -> bs !! u = None ->
  fst (serve rnd bs (repeat (Some u, t, t) m))
  = repeat GatePass (Nat.min m 5) ++ repeat Gate429 (m - 5).
Proof.
  intros Hrnd Hint Hu Hnone.
  apply (serve_same_instant rnd u t m 5 bs (default_bucket t));
    auto; simpl; try reflexivity; lra.
Qed.

Lemma new_caller_burst_witness :
  fst (serve round_grid ∅ (repeat (Some "ann"%string, 3, 3) 7))
  = [GatePass; GatePass; GatePass; GatePass; GatePass; Gate429; Gate429].
Proof.
  apply (new_caller_burst round_grid ∅ "ann" 3 7).
  - exact round_grid_rounding.
  - intros j _. apply round_grid_exact_on_integers.
  - discriminate.
  - apply lookup_empty.
Defined.

End BucketFacts.

(** ** The camera manager *)

Module CameraFacts.
Import Camera.

(** *** Table updates *)

Lemma lookup_set_pc_eq t pc w :
  t < length (tasks w) -> tasks (set_pc t pc w) !! t = Some pc.
Proof. intros H. simpl. now apply list_lookup_insert_eq. Qed.

Lemma lookup_set_pc_ne t t' pc w :
  t <> t' -> tasks (set_pc t pc w) !! t' = tasks w !! t'.
Proof. intros H. simpl. now apply list_lookup_insert_ne. Qed.

Lemma lookup_set_pc t t' pc pc' w :
  tasks (set_pc t pc w) !! t' = Some pc' ->
  (t' = t /\ pc' = pc) \/ tasks w !! t' = Some pc'.
Proof.
  simpl. intros H. destruct (decide (t = t')) as [->|Hne].
  - destruct (decide (t' < length (tasks w))) as [Hlt|Hge].
    + rewrite list_lookup_insert_eq in H by assumption. left. split; congruence.
    + rewrite list_insert_ge in H by lia. now right.
  - rewrite list_lookup_insert_ne in H by assumption. now right.
Qed.

Lemma length_count_read h w : length (caps (count_read h w)) = length (caps w).
Proof. simpl. destruct (caps w !! h); [apply length_insert | reflexivity]. Qed.

Lemma length_release h w : length (caps (release h w)) = length (caps w).
Proof. simpl. destruct (caps w !! h); [apply length_insert | reflexivity]. Qed.

(** *** One resumption of the loop *)

(** Case analysis over the code of [loop_resume]. *)
Ltac loop_cases :=
  unfold loop_resume, loop_top in *; repeat case_match; subst.

Lemma loop_resume_flags L t inp w :
  let m' := mgr (loop_resume L t inp w) in
  _running m' = _running (mgr w) /\ _paused m' = _paused (mgr w) /\
  _cap m' = _cap (mgr w) /\ _task m' = _task (mgr w).
Proof. loop_cases; simpl; auto. Qed.

Lemma loop_resume_length_tasks L t inp w :
  length (tasks (loop_resume L t inp w)) = length (tasks w).
Proof. loop_cases; simpl; rewrite ?length_insert; reflexivity. Qed.

Lemma loop_resume_length_caps L t inp w :
  length (caps (loop_resume L t inp w)) = length (caps w).
Proof.
  loop_cases; simpl; try reflexivity;
    match goal with |- context [caps ?w !! ?h] =>
      destruct (caps w !! h); [apply length_insert | reflexivity] end.
Qed.

Lemma loop_resume_other L t t' inp w :
  t <> t' -> tasks (loop_resume L t inp w) !! t' = tasks w !! t'.
Proof.
  intros Hne. loop_cases; simpl; rewrite ?list_lookup_insert_ne by assumption;
    reflexivity.
Qed.


Lemma loop_resume_unfinished L t inp w pc' :
  tasks (loop_resume L t inp w) !! t = Some pc' -> finished pc' = false ->
  exists pc, tasks w !! t = Some pc /\ finished pc = false.
Proof.
  intros H Hf. destruct (tasks w !! t) as [pc|] eqn:E.
  - exists pc. split; [reflexivity|]. destruct (finished pc) eqn:Ef; [|reflexivity].
    unfold loop_resume in H. rewrite E in H.
    destruct pc; try discriminate; congruence.
  - unfold loop_resume in H. rewrite E in H. congruence.
Qed.

Lemma last_snoc_default (l : list (option stored)) j :
  default None (last (l ++ [j])) = j.
Proof. now rewrite last_snoc. Qed.

Lemma loop_resume_frame L t inp w :
  _latest_frame (mgr w) = default None (last (published w)) ->
  _latest_frame (mgr (loop_resume L t inp w))
  = default None (last (published (loop_resume L t inp w))).
Proof.
  intros H. loop_cases; simpl; rewrite ?last_snoc; simpl; auto.
Qed.

Lemma loop_resume_encode L t inp w t' f :
  (forall t0 f0, tasks w !! t0 = Some (PcEncode f0) -> Image_present L = false) ->
  tasks (loop_resume L t inp w) !! t' = Some (PcEncode f) ->
  Image_present L = false.
Proof.
  intros Hold H. destruct (decide (t = t')) as [<-|Hne].
  - unfold loop_resume, loop_top in H.
    repeat case_match; subst; try (eapply Hold; eassumption);
      apply lookup_set_pc in H as [[_ Heq]|H]; try discriminate;
      try (eapply Hold; eassumption); congruence.
  - rewrite loop_resume_other in H by assumption. eapply Hold; eassumption.
Qed.

(** Resuming a task keeps the invariant. *)
Lemma loop_resume_inv0 L t inp w : inv0 L w -> inv0 L (loop_resume L t inp w).
Proof.
  intros [Hcv Hlive Htask Hcap Hrc Hfr Hen].
  destruct (loop_resume_flags L t inp w) as (Er & Ep & Ec & Et).
  simpl in Er, Ep, Ec, Et.
  split; rewrite ?Er, ?Ec, ?Et, ?loop_resume_length_tasks,
    ?loop_resume_length_caps; try assumption.
  - intros t' pc' H Hf. destruct (decide (t = t')) as [<-|Hne].
    + destruct (loop_resume_unfinished L t inp w pc' H Hf) as (pc & E & Ef).
      eapply Hlive; eassumption.
    + rewrite loop_resume_other in H by assumption. eapply Hlive; eassumption.
  - now apply loop_resume_frame.
  - intros t' f. now apply loop_resume_encode.
Qed.

Lemma loop_resume_inv L t inp w : inv L w -> inv L (loop_resume L t inp w).
Proof.
  intros [H0 Hrun]. split; [now apply loop_resume_inv0|].
  intros t' pc' H Hf.
  destruct (loop_resume_flags L t inp w) as (Er & _). simpl in Er. rewrite Er.
  destruct (decide (t = t')) as [<-|Hne].
  - destruct (loop_resume_unfinished L t inp w pc' H Hf) as (pc & E & Ef).
    eapply Hrun; eassumption.
  - rewrite loop_resume_other in H by assumption. eapply Hrun; eassumption.
Qed.


(** *** The operations keep the invariant *)

Lemma lookup_snoc_Some {A} (l : list A) (x y : A) i :
  (l ++ [x]) !! i = Some y -> l !! i = Some y \/ (i = length l /\ y = x).
Proof.
  intros H. apply lookup_app_Some in H as [H|[Hle H]]; [now left|right].
  destruct (i - length l) as [|k] eqn:E; simpl in H; [|discriminate].
  split; [lia | congruence].
Qed.

Lemma start_inv L o w : inv L w -> inv L (snd (start L o w)).
Proof.
  intros Hinv. unfold start.
  destruct (cv2_present L) eqn:Ecv; simpl; [|exact Hinv].
  destruct (_running (mgr w)) eqn:Er; simpl; [exact Hinv|].
  destruct Hinv as [[Hcv Hlive Htask Hcap Hrc Hfr Hen] Hrun].
  unfold isOpened; simpl.
  rewrite lookup_app_r by lia. rewrite Nat.sub_diag; simpl.
  assert (Hdead : forall t pc, tasks w !! t = Some pc -> finished pc = true).
  { intros t pc H. destruct (finished pc) eqn:Ef; [reflexivity|].
    specialize (Hrun t pc H Ef). congruence. }
  destruct o; simpl.
  - split; [split|]; simpl; try assumption; try reflexivity.
    + intros _. exact Ecv.
    + intros t pc H Hf. apply lookup_snoc_Some in H as [H|[-> _]].
      * apply Hdead in H. congruence.
      * reflexivity.
    + intros t [= <-]. rewrite length_app; simpl; lia.
    + intros h [= <-]. rewrite length_app; simpl; lia.
    + intros _. eauto.
    + intros t f H. apply lookup_snoc_Some in H as [H|[_ ?]];
        [eapply Hen; eassumption | discriminate].
  - split; [split|]; rewrite ?length_release; simpl; try assumption.
    + intros h [= <-]. rewrite length_app; simpl; lia.
    + rewrite Er. discriminate.
Qed.

Lemma pause_inv L w : inv L w -> inv L (snd (pause w)).
Proof. intros [[] Hrun]. split; [split|]; assumption. Qed.

Lemma resume_inv L o w : inv L w -> inv L (snd (resume L o w)).
Proof.
  intros H. unfold resume. destruct (_running (mgr w)); simpl.
  - destruct H as [[] Hrun]. split; [split|]; assumption.
  - now apply start_inv.
Qed.


(** *** Waiting for the loop *)

Lemma run_task_finished n L t inp w pc :
  tasks w !! t = Some pc -> finished pc = true -> run_task n L t inp w = w.
Proof. intros E Hf. destruct n; simpl; [reflexivity|]. now rewrite E, Hf. Qed.

Lemma run_task_inv0 n L t inp w : inv0 L w -> inv0 L (run_task n L t inp w).
Proof.
  revert w. induction n as [|n IH]; intros w H; simpl; [assumption|].
  destruct (tasks w !! t) as [pc|]; [|assumption].
  destruct (finished pc); [assumption|]. now apply IH, loop_resume_inv0.
Qed.

Lemma run_task_flags n L t inp w :
  _running (mgr (run_task n L t inp w)) = _running (mgr w) /\
  _paused (mgr (run_task n L t inp w)) = _paused (mgr w) /\
  _cap (mgr (run_task n L t inp w)) = _cap (mgr w) /\
  _task (mgr (run_task n L t inp w)) = _task (mgr w).
Proof.
  revert w. induction n as [|n IH]; intros w; simpl; [auto|].
  destruct (tasks w !! t) as [pc|]; [|auto].
  destruct (finished pc); [auto|].
  destruct (loop_resume_flags L t inp w) as (Er & Ep & Ec & Et).
  destruct (IH (loop_resume L t inp w)) as (Er' & Ep' & Ec' & Et').
  simpl in *. rewrite Er', Ep', Ec', Et'. auto.
Qed.

Lemma run_task_other n L t t' inp w :
  t <> t' -> tasks (run_task n L t inp w) !! t' = tasks w !! t'.
Proof.
  intros Hne. revert w. induction n as [|n IH]; intros w; simpl; [reflexivity|].
  destruct (tasks w !! t) as [pc|]; [|reflexivity].
  destruct (finished pc); [reflexivity|].
  rewrite IH. now apply loop_resume_other.
Qed.

(** With [_running] false, each resumption brings the task closer to its
    end. *)
Lemma loop_resume_progress L t inp w pc :
  _running (mgr w) = false -> tasks w !! t = Some pc -> finished pc = false ->
  exists pc', tasks (loop_resume L t inp w) !! t = Some pc' /\
              steps_left pc' < steps_left pc.
Proof.
  intros Hr E Hf. assert (Hlt : t < length (tasks w)) by (eapply lookup_lt_Some; eauto).
  unfold loop_resume, loop_top. rewrite E, Hr.
  destruct pc; try discriminate; repeat case_match; subst;
    (eexists; split; [apply lookup_set_pc_eq; simpl; assumption | simpl; lia]).
Qed.

Lemma run_task_finishes n L t inp w pc :
  _running (mgr w) = false -> tasks w !! t = Some pc -> steps_left pc <= n ->
  exists pc', tasks (run_task n L t inp w) !! t = Some pc' /\ finished pc' = true.
Proof.
  revert w pc. induction n as [|n IH]; intros w pc Hr E Hn; simpl.
  - exists pc. split; [assumption|]. destruct pc; simpl in *; try lia; reflexivity.
  - rewrite E. destruct (finished pc) eqn:Hf; [eauto|].
    destruct (loop_resume_progress L t inp w pc Hr E Hf) as (pc' & E' & Hlt).
    apply (IH _ pc'); [|assumption|lia].
    destruct (loop_resume_flags L t inp w) as (Er & _). simpl in Er. congruence.
Qed.

Lemma steps_left_bound pc : steps_left pc <= await_bound.
Proof. destruct pc; simpl; unfold await_bound; lia. Qed.

Lemma run_task_length_caps n L t inp w :
  length (caps (run_task n L t inp w)) = length (caps w).
Proof.
  revert w. induction n as [|n IH]; intros w; simpl; [reflexivity|].
  destruct (tasks w !! t) as [pc|]; [|reflexivity].
  destruct (finished pc); [reflexivity|].
  rewrite IH. apply loop_resume_length_caps.
Qed.

Lemma await_bound_eq : await_bound = 4.
Proof. reflexivity. Qed.

#[global] Opaque await_bound.

(** [await self._task] in [stop] always comes back. *)
Lemma await_task_returns L t inp w :
  _running (mgr w) = false -> t < length (tasks w) ->
  let w1 := run_task await_bound L t inp w in
  (tasks w1 !! t = Some PcDone /\ await_task L t inp w = Some (Return tt, w1)) \/
  (exists e, tasks w1 !! t = Some (PcFailed e) /\
             await_task L t inp w = Some (Raise e, w1)).
Proof.
  intros Hr Hlt. apply lookup_lt_is_Some in Hlt as [pc E].
  destruct (run_task_finishes await_bound L t inp w pc Hr E (steps_left_bound pc))
    as (pc' & E' & Hf).
  simpl. unfold await_task. rewrite E'.
  destruct pc'; try discriminate; [left|right]; eauto.
Qed.

(** What [stop] does: it always returns; it either cleans up, or it raises
    what the loop raised and leaves the clean-up undone. *)
Lemma stop_cases L inp w :
  inv L w ->
  let w1 := with_mgr (set_running false) w in
  match _task (mgr w) with
  | None => stop L inp w = Some (Return tt, stop_cleanup w1)
  | Some t =>
      let w2 := run_task await_bound L t inp w1 in
      (tasks w2 !! t = Some PcDone /\
       stop L inp w = Some (Return tt, stop_cleanup w2)) \/
      (exists e, tasks w2 !! t = Some (PcFailed e) /\
                 stop L inp w = Some (Raise e, w2))
  end.
Proof.
  intros [H0 _]. simpl. unfold stop. simpl.
  destruct (_task (mgr w)) as [t|] eqn:Et; [|reflexivity].
  destruct (await_task_returns L t inp (with_mgr (set_running false) w))
    as [[E ->]|(e & E & ->)]; simpl; auto.
  - now apply (inv_task L w H0).
  - right. eauto.
Qed.


Lemma set_running_false_inv0 L w :
  inv0 L w -> inv0 L (with_mgr (set_running false) w).
Proof. intros []. split; simpl; try assumption; discriminate. Qed.

(** After the wait, no task is left running. *)
Lemma awaited_all_finished L t inp w :
  inv0 L w -> _running (mgr w) = false -> _task (mgr w) = Some t ->
  forall t' pc, tasks (run_task await_bound L t inp w) !! t' = Some pc ->
                finished pc = true.
Proof.
  intros H0 Hr Et t' pc E. destruct (finished pc) eqn:Hf; [reflexivity|].
  pose proof (run_task_inv0 await_bound L t inp w H0) as H2.
  destruct (run_task_flags await_bound L t inp w) as (_ & _ & _ & Et').
  pose proof (inv_live L _ H2 t' pc E Hf) as Ht'.
  rewrite Et', Et in Ht'. injection Ht' as <-.
  assert (Hlt : t < length (tasks w)) by now apply (inv_task L w H0).
  apply lookup_lt_is_Some in Hlt as [pc0 E0].
  destruct (run_task_finishes await_bound L t inp w pc0 Hr E0
              (steps_left_bound pc0)) as (pc' & E' & Hf').
  congruence.
Qed.

Lemma stop_cleanup_inv L w :
  inv0 L w -> _running (mgr w) = false ->
  (forall t pc, tasks w !! t = Some pc -> finished pc = true) ->
  inv L (stop_cleanup w).
Proof.
  intros [Hcv Hlive Htask Hcap Hrc Hfr Hen] Hr Hfin.
  assert (Et : tasks (stop_cleanup w) = tasks w)
    by (unfold stop_cleanup; destruct (_cap (mgr w)); reflexivity).
  assert (Er : _running (mgr (stop_cleanup w)) = false)
    by (unfold stop_cleanup; destruct (_cap (mgr w)); simpl; assumption).
  assert (Ec : _cap (mgr (stop_cleanup w)) = None)
    by (unfold stop_cleanup; destruct (_cap (mgr w)) eqn:E; simpl; auto).
  assert (Ek : _task (mgr (stop_cleanup w)) = None)
    by (unfold stop_cleanup; destruct (_cap (mgr w)); reflexivity).
  assert (Ef : _latest_frame (mgr (stop_cleanup w)) = _latest_frame (mgr w) /\
               published (stop_cleanup w) = published w)
    by (unfold stop_cleanup; destruct (_cap (mgr w)); split; reflexivity).
  destruct Ef as [Ef Epub].
  split; [split|]; rewrite ?Et, ?Er, ?Ec, ?Ek, ?Ef, ?Epub; try assumption;
    try discriminate.
  - intros t pc E Hf. specialize (Hfin t pc E). congruence.
  - intros t pc E Hf. specialize (Hfin t pc E). congruence.
Qed.

(** [stop] returns, keeps the invariant, and leaves no task running. *)
Lemma stop_post L inp w :
  inv L w ->
  exists r w', stop L inp w = Some (r, w') /\ inv L w' /\
               _running (mgr w') = false /\
               (forall t pc, tasks w' !! t = Some pc -> finished pc = true).
Proof.
  intros Hinv. pose proof (stop_cases L inp w Hinv) as Hc. simpl in Hc.
  destruct Hinv as [H0 Hrun].
  pose proof (set_running_false_inv0 L w H0) as H1.
  set (w1 := with_mgr (set_running false) w) in *.
  destruct (_task (mgr w)) as [t|] eqn:Et.
  - assert (Hfin := awaited_all_finished L t inp w1 H1 eq_refl Et).
    pose proof (run_task_inv0 await_bound L t inp w1 H1) as H2.
    destruct (run_task_flags await_bound L t inp w1) as (Er & _).
    change (_running (mgr w1)) with false in Er.
    set (w2 := run_task await_bound L t inp w1) in *.
    assert (Hcl : tasks (stop_cleanup w2) = tasks w2)
      by (unfold stop_cleanup; destruct (_cap (mgr w2)); reflexivity).
    destruct Hc as [[_ ->]|(e & _ & ->)].
    + pose proof (stop_cleanup_inv L w2 H2 Er Hfin) as Hi.
      exists (Return tt), (stop_cleanup w2).
      split; [reflexivity|]. split; [exact Hi|].
      split; [|now rewrite Hcl].
      unfold stop_cleanup; destruct (_cap (mgr w2)); simpl; assumption.
    + exists (Raise e), w2.
      split; [reflexivity|]. split; [|split; assumption].
      split; [assumption|]. intros t' pc E Hf. specialize (Hfin t' pc E).
      congruence.
  - assert (Hfin : forall t pc, tasks w1 !! t = Some pc -> finished pc = true).
    { intros t pc E. destruct (finished pc) eqn:Hf; [reflexivity|].
      pose proof (inv_live L w H0 t pc E Hf). congruence. }
    assert (Hcl : tasks (stop_cleanup w1) = tasks w1)
      by (unfold stop_cleanup; destruct (_cap (mgr w1)); reflexivity).
    rewrite Hc. exists (Return tt), (stop_cleanup w1). split; [reflexivity|].
    split; [now apply stop_cleanup_inv|]. split; [|now rewrite Hcl].
    unfold stop_cleanup; destruct (_cap (mgr w1)); reflexivity.
Qed.

Lemma step_inv L a w w1 : inv L w -> step L a w = Some w1 -> inv L w1.
Proof.
  intros Hinv Hs. destruct a; simpl in Hs.
  - injection Hs as <-. now apply start_inv.
  - injection Hs as <-. now apply (pause_inv L).
  - injection Hs as <-. now apply resume_inv.
  - destruct (stop_post L inp w Hinv) as (r & w' & E & Hi & _).
    rewrite E in Hs. simpl in Hs. now injection Hs as <-.
  - injection Hs as <-. now apply loop_resume_inv.
Qed.

Lemma init_inv L : inv L init.
Proof.
  split; [split|]; simpl; try discriminate; try reflexivity;
    intros; rewrite lookup_nil in *; discriminate.
Qed.

(** Every reachable world satisfies the invariant. *)
Lemma reachable_inv L w : reachable L w -> inv L w.
Proof.
  induction 1 as [|a w w1 _ IH Hs]; [apply init_inv | eapply step_inv; eauto].
Qed.


Lemma run_reachable L acts w w' :
  reachable L w -> run L acts w = Some w' -> reachable L w'.
Proof.
  revert w. induction acts as [|a acts IH]; intros w Hw H; simpl in H.
  - now injection H as <-.
  - destruct (step L a w) as [w1|] eqn:E; [|discriminate].
    eapply IH; [|eassumption]. eapply reach_step; eassumption.
Qed.

Lemma world_after_reachable L acts : reachable L (world_after L acts).
Proof.
  unfold world_after. destruct (run L acts init) as [w|] eqn:E; simpl.
  - eapply run_reachable; [apply reach_init | eassumption].
  - apply reach_init.
Qed.

(** *** [start] *)

(** C2: when [start] is called in state Stopped and the device does not
    open, the call raises a RuntimeError (the message names the camera
    when OpenCV is installed), every capture object the call created has
    been released by then, no task is created, and the state is still
    Stopped. *)
Theorem start_unopenable_raises_released_stopped (L : Libs) (w : world) :
  state_of (mgr w) = Stopped ->
  let r := fst (start L false w) in
  let w' := snd (start L false w) in
  (exists msg, r = Raise (RuntimeError msg)) /\
  (cv2_present L = true ->
     r = Raise (RuntimeError "Unable to open camera device") /\
     caps w' = caps w ++ [{| cap_opened := false; cap_releases := 1;
                             cap_reads := 0 |}]) /\
  (cv2_present L = false -> caps w' = caps w) /\
  (forall h c, caps w' !! h = Some c -> length (caps w) <= h -> released c) /\
  (forall h c, caps w !! h = Some c -> caps w' !! h = Some c) /\
  state_of (mgr w') = Stopped /\
  _paused (mgr w') = _paused (mgr w) /\
  tasks w' = tasks w /\ _task (mgr w') = _task (mgr w) /\
  _latest_frame (mgr w') = _latest_frame (mgr w).
Proof.
  intros Hs.
  assert (Hr : _running (mgr w) = false).
  { unfold state_of in Hs. destruct (_running (mgr w)); [|reflexivity].
    destruct (_paused (mgr w)); discriminate. }
  unfold start, state_of. rewrite Hr.
  destruct (cv2_present L); simpl.
  - unfold isOpened; simpl. rewrite lookup_app_r by lia.
    rewrite Nat.sub_diag; simpl. rewrite lookup_app_r by lia.
    rewrite Nat.sub_diag; simpl. rewrite Hr.
    rewrite insert_app_r_alt by lia. rewrite Nat.sub_diag; simpl.
    split; [eauto|]. split; [auto|]. split; [discriminate|].
    split; [|split; [|auto 6]].
    + intros h c H Hle. apply lookup_snoc_Some in H as [H|[_ ->]].
      * apply lookup_lt_Some in H. lia.
      * split; simpl; [reflexivity | lia].
    + intros h c H. now apply lookup_app_l_Some.
  - rewrite Hr. split; [eauto|]. split; [discriminate|]. split; [auto|].
    split; [|auto 8].
    intros h c H Hle. apply lookup_lt_Some in H. lia.
Qed.

Lemma start_unopenable_raises_released_stopped_witness :
  fst (start sample_libs false init)
    = Raise (RuntimeError "Unable to open camera device") /\
  caps (snd (start sample_libs false init))
    = [{| cap_opened := false; cap_releases := 1; cap_reads := 0 |}] /\
  state_of (mgr (snd (start sample_libs false init))) = Stopped.
Proof.
  pose proof (start_unopenable_raises_released_stopped sample_libs init eq_refl)
    as (_ & H & _ & _ & _ & Hs & _).
  destruct (H eq_refl) as [Hr Hc]. split; [exact Hr|]. split; [exact Hc|exact Hs].
Defined.


(** [start] with the capture table looked through. *)
Lemma start_unfold L o w :
  start L o w =
  if negb (cv2_present L) then
    (Raise (RuntimeError "OpenCV (cv2) is required for camera functionality"), w)
  else if _running (mgr w) then (Return tt, w)
  else if o then
    (Return tt,
     {| mgr := set_task (Some (length (tasks w)))
                 (set_paused false
                    (set_running true (set_cap (Some (length (caps w))) (mgr w))));
        caps := caps w ++ [{| cap_opened := true; cap_releases := 0;
                              cap_reads := 0 |}];
        tasks := tasks w ++ [PcCreated];
        published := published w |})
  else
    (Raise (RuntimeError "Unable to open camera device"),
     {| mgr := set_cap (Some (length (caps w))) (mgr w);
        caps := caps w ++ [{| cap_opened := false; cap_releases := 1;
                              cap_reads := 0 |}];
        tasks := tasks w;
        published := published w |}).
Proof.
  unfold start. destruct (cv2_present L); simpl; [|reflexivity].
  destruct (_running (mgr w)); simpl; [reflexivity|].
  unfold isOpened; simpl. rewrite lookup_app_r by lia.
  rewrite Nat.sub_diag; simpl. destruct o; simpl; [reflexivity|].
  unfold release, with_caps; simpl. rewrite lookup_app_r by lia.
  rewrite Nat.sub_diag; simpl.
  rewrite insert_app_r_alt by lia. rewrite Nat.sub_diag; reflexivity.
Qed.

Lemma running_iff_not_stopped m : _running m = true <-> state_of m <> Stopped.
Proof.
  unfold state_of. destruct (_running m), (_paused m); split; congruence.
Qed.

(** C4: in every reachable world in which the state is Running or Paused,
    [start] returns without changing anything; hence, of two calls in a
    row, the second changes nothing once the first has returned, the two
    together create at most one capture object and one task, and they end
    in state Running when they began in state Stopped. *)
Theorem start_idempotent (L : Libs) (o1 o2 : bool) (w : world) :
  reachable L w ->
  let r1 := fst (start L o1 w) in
  let w1 := snd (start L o1 w) in
  let r2 := fst (start L o2 w1) in
  let w2 := snd (start L o2 w1) in
  (state_of (mgr w) <> Stopped -> r1 = Return tt /\ w1 = w) /\
  (r1 = Return tt ->
     r2 = Return tt /\ w2 = w1 /\
     length (caps w2) <= S (length (caps w)) /\
     length (tasks w2) <= S (length (tasks w)) /\
     (state_of (mgr w) = Stopped -> state_of (mgr w2) = Running)).
Proof.
  intros Hw. apply reachable_inv in Hw as [H0 _]. simpl.
  pose proof (inv_cv2 L w H0) as Hcv. split.
  - intros Hs. apply running_iff_not_stopped in Hs. unfold start.
    rewrite (Hcv Hs), Hs. simpl. auto.
  - rewrite (start_unfold L o1 w).
    destruct (cv2_present L) eqn:Ecv; simpl; [|discriminate].
    destruct (_running (mgr w)) eqn:Er; simpl.
    + intros _. rewrite start_unfold, Ecv, Er. simpl.
      unfold state_of. rewrite Er.
      split; [reflexivity|]. split; [reflexivity|].
      split; [lia|]. split; [lia|]. destruct (_paused (mgr w)); discriminate.
    + destruct o1; simpl; [|discriminate].
      intros _. rewrite start_unfold, Ecv. simpl.
      rewrite !length_app. simpl.
      split; [reflexivity|]. split; [reflexivity|].
      split; [lia|]. split; [lia|]. reflexivity.
Qed.

Lemma start_idempotent_witness :
  snd (start sample_libs true (snd (start sample_libs true init)))
    = snd (start sample_libs true init) /\
  state_of (mgr (snd (start sample_libs true init))) = Running /\
  length (caps (snd (start sample_libs true init))) = 1 /\
  length (tasks (snd (start sample_libs true init))) = 1.
Proof.
  pose proof (start_idempotent sample_libs true true init
                (reach_init sample_libs)) as [_ H].
  destruct (H eq_refl) as (_ & E & _ & _ & Hs).
  split; [exact E|]. split; [|split; reflexivity].
  rewrite <- E. exact (Hs eq_refl).
Defined.

(** *** [pause] *)

(** C6: [pause] always returns and touches neither the capture objects nor
    the tasks nor the frame; from Running it leads to Paused, in Paused it
    changes nothing at all, and in Stopped the state stays Stopped (only the
    flag [_paused], which [start] resets, is set). *)
Theorem pause_effect (w : world) :
  let w' := snd (pause w) in
  fst (pause w) = Return tt /\
  caps w' = caps w /\ tasks w' = tasks w /\ published w' = published w /\
  _cap (mgr w') = _cap (mgr w) /\ _task (mgr w') = _task (mgr w) /\
  _running (mgr w') = _running (mgr w) /\
  _latest_frame (mgr w') = _latest_frame (mgr w) /\
  match state_of (mgr w) with
  | Running => state_of (mgr w') = Paused
  | Paused => w' = w
  | Stopped => state_of (mgr w') = Stopped
  end.
Proof.
  simpl. repeat (split; [reflexivity|]).
  destruct w as [[di f c t r p lf] cs ts pub]. unfold state_of; simpl.
  destruct r, p; reflexivity.
Qed.


(** *** [stop] and the frame store *)

(** A resumption publishes at most once, and only when it ends an
    iteration that was converting or encoding. *)
Lemma loop_resume_published L t inp w :
  published (loop_resume L t inp w) = published w \/
  exists j pc, tasks w !! t = Some pc /\ 2 <= steps_left pc /\
    published (loop_resume L t inp w) = published w ++ [j] /\
    tasks (loop_resume L t inp w) !! t = Some PcSleepInterval.
Proof.
  destruct (tasks w !! t) as [pc|] eqn:E;
    [|left; unfold loop_resume; now rewrite E].
  assert (Hlt : t < length (tasks w)) by (eapply lookup_lt_Some; eauto).
  unfold loop_resume, loop_top. rewrite E.
  destruct pc; repeat case_match; subst; simpl; auto; right;
    eexists _, _; (split; [reflexivity|]); simpl;
    (split; [lia|]); (split; [reflexivity|]);
    now apply list_lookup_insert_eq.
Qed.

Lemma run_task_quiet n L t inp w pc :
  _running (mgr w) = false -> tasks w !! t = Some pc -> steps_left pc <= 1 ->
  published (run_task n L t inp w) = published w.
Proof.
  revert w pc. induction n as [|n IH]; intros w pc Hr E Hs; simpl; [reflexivity|].
  rewrite E. destruct (finished pc) eqn:Hf; [reflexivity|].
  destruct (loop_resume_progress L t inp w pc Hr E Hf) as (pc' & E' & Hlt).
  destruct (loop_resume_flags L t inp w) as (Er & _). simpl in Er.
  rewrite (IH _ pc') by (congruence || lia).
  destruct (loop_resume_published L t inp w) as [->|(j & pc0 & E0 & H2 & _)];
    [reflexivity|].
  rewrite E in E0. injection E0 as <-. lia.
Qed.

(** While [stop] waits, the loop publishes at most one more frame: the one
    of the iteration it was in. *)
Lemma run_task_published n L t inp w pc :
  _running (mgr w) = false -> tasks w !! t = Some pc ->
  published (run_task n L t inp w) = published w \/
  (2 <= steps_left pc /\
   exists j, published (run_task n L t inp w) = published w ++ [j]).
Proof.
  revert w pc. induction n as [|n IH]; intros w pc Hr E; simpl; [now left|].
  rewrite E. destruct (finished pc) eqn:Hf; [now left|].
  destruct (loop_resume_progress L t inp w pc Hr E Hf) as (pc' & E' & Hlt).
  destruct (loop_resume_flags L t inp w) as (Er & _). simpl in Er.
  assert (Hr' : _running (mgr (loop_resume L t inp w)) = false) by congruence.
  destruct (loop_resume_published L t inp w)
    as [Hp|(j & pc0 & E0 & H2 & Hp & Epc)].
  - destruct (IH _ pc' Hr' E') as [->|(H2 & j & ->)]; rewrite Hp.
    + now left.
    + right. split; [lia | eauto].
  - rewrite E in E0. injection E0 as <-. right. split; [assumption|].
    exists j. rewrite (run_task_quiet n L t inp _ PcSleepInterval Hr' Epc)
      by (simpl; lia).
    exact Hp.
Qed.

Lemma stop_cleanup_frame w :
  published (stop_cleanup w) = published w /\
  _latest_frame (mgr (stop_cleanup w)) = _latest_frame (mgr w).
Proof. unfold stop_cleanup. destruct (_cap (mgr w)); split; reflexivity. Qed.

(** Every published value came from the path the installed libraries
    select. *)
Lemma loop_resume_path L t inp w :
  inv0 L w -> Forall (path_frame L) (published w) ->
  Forall (path_frame L) (published (loop_resume L t inp w)).
Proof.
  intros H0 Hok.
  unfold loop_resume, loop_top. repeat case_match; subst; simpl; try assumption;
    apply Forall_app; (split; [assumption|]); constructor; try constructor; simpl;
    try assumption; eapply (inv_encode L w H0); eassumption.
Qed.

Lemma run_task_path n L t inp w :
  inv0 L w -> Forall (path_frame L) (published w) ->
  Forall (path_frame L) (published (run_task n L t inp w)).
Proof.
  revert w. induction n as [|n IH]; intros w H0 Hok; simpl; [assumption|].
  destruct (tasks w !! t) as [pc|]; [|assumption].
  destruct (finished pc); [assumption|].
  apply IH; [now apply loop_resume_inv0 | now apply loop_resume_path].
Qed.

Lemma step_path L a w w1 :
  inv L w -> Forall (path_frame L) (published w) -> step L a w = Some w1 ->
  Forall (path_frame L) (published w1).
Proof.
  intros Hinv Hok Hs. destruct a; simpl in Hs.
  - injection Hs as <-. rewrite start_unfold. repeat case_match; assumption.
  - injection Hs as <-. assumption.
  - injection Hs as <-. unfold resume. destruct (negb (_running (mgr w)));
      [|assumption].
    rewrite start_unfold. repeat case_match; assumption.
  - pose proof (stop_cases L inp w Hinv) as Hc. simpl in Hc.
    destruct Hinv as [H0 _].
    pose proof (set_running_false_inv0 L w H0) as H1.
    assert (Hok1 : Forall (path_frame L)
                     (published (with_mgr (set_running false) w))) by assumption.
    assert (Hcl : forall w2, Forall (path_frame L) (published w2) ->
                             Forall (path_frame L) (published (stop_cleanup w2))).
    { intros w2. now rewrite (proj1 (stop_cleanup_frame w2)). }
    destruct (_task (mgr w)) as [t|].
    + pose proof (run_task_path await_bound L t inp _ H1 Hok1) as Hok2.
      destruct Hc as [[_ Hc]|(e & _ & Hc)]; rewrite Hc in Hs; simpl in Hs;
        injection Hs as <-; auto.
    + rewrite Hc in Hs. simpl in Hs. injection Hs as <-. auto.
  - injection Hs as <-. destruct Hinv as [H0 _]. now apply loop_resume_path.
Qed.

Lemma reachable_path L w : reachable L w -> Forall (path_frame L) (published w).
Proof.
  induction 1 as [|a w w1 Hw IH Hs]; [constructor|].
  eapply step_path; eauto using reachable_inv.
Qed.

(** C8: [stop] returns from every reachable world and does not clear the
    frame store: afterwards [get_latest_frame] returns the value published
    last.  That is the value it returned before the call, unless the loop
    was in the middle of an iteration; then it is what this iteration
    published while [stop] waited for it: a frame or, on the fallback path
    only, absence.  With Pillow installed a frame that was there before
    [stop] is followed by a frame after it. *)
Theorem stop_keeps_latest_frame (L : Libs) (inp : bool * ndarray) (w : world) :
  reachable L w ->
  exists r w', stop L inp w = Some (r, w') /\
    get_latest_frame w' = default None (last (published w')) /\
    ((published w' = published w /\ get_latest_frame w' = get_latest_frame w) \/
     (exists j t pc, _task (mgr w) = Some t /\ tasks w !! t = Some pc /\
        2 <= steps_left pc /\
        published w' = published w ++ [j] /\ get_latest_frame w' = j /\
        path_frame L j)) /\
    (Image_present L = true -> is_Some (get_latest_frame w) ->
     is_Some (get_latest_frame w')).
Proof.
  intros Hw. apply reachable_inv in Hw as Hinv.
  destruct (stop_post L inp w Hinv) as (r & w' & Es & [Hi' _] & _ & _).
  exists r, w'. split; [exact Es|].
  assert (Hw' : reachable L w').
  { apply (reach_step L (Stop inp) w w' Hw). simpl. now rewrite Es. }
  pose proof (reachable_path L w' Hw') as Hpath.
  pose proof (inv_frame L w' Hi') as Hf'. split; [exact Hf'|].
  destruct Hinv as [H0 Hrun]. pose proof (inv_frame L w H0) as Hf.
  unfold get_latest_frame.
  assert (Hpub : published w' = published w \/
            exists j t pc, _task (mgr w) = Some t /\ tasks w !! t = Some pc /\
              2 <= steps_left pc /\ published w' = published w ++ [j]).
  { pose proof (stop_cases L inp w (conj H0 Hrun)) as Hc. simpl in Hc.
    destruct (_task (mgr w)) as [t|] eqn:Et.
    - assert (Hlt : t < length (tasks w)) by now apply (inv_task L w H0).
      apply lookup_lt_is_Some in Hlt as [pc E].
      set (w1 := with_mgr (set_running false) w) in *.
      assert (Hp := run_task_published await_bound L t inp w1 pc eq_refl E).
      assert (Hpw : published w' = published (run_task await_bound L t inp w1)).
      { destruct Hc as [[_ Hc]|(e & _ & Hc)]; rewrite Hc in Es;
          injection Es as _ <-; [apply stop_cleanup_frame | reflexivity]. }
      rewrite Hpw. destruct Hp as [->|(H2 & j & ->)]; [now left|].
      right. exists j, t, pc. auto.
    - rewrite Hc in Es. injection Es as _ <-. left.
      exact (proj1 (stop_cleanup_frame _)). }
  destruct Hpub as [Hp|(j & t & pc & Et & E & H2 & Hp)].
  - split.
    + left. split; [exact Hp|]. now rewrite Hf', Hf, Hp.
    + intros _. now rewrite Hf', Hf, Hp.
  - assert (Hj : path_frame L j).
    { rewrite Hp in Hpath. apply Forall_app in Hpath as [_ Hj].
      inversion Hj; assumption. }
    assert (Ej : _latest_frame (mgr w') = j)
      by (rewrite Hf', Hp; apply last_snoc_default).
    split.
    + right. exists j, t, pc. auto 10.
    + intros Him _. rewrite Ej. destruct j as [[b|a]|]; simpl in Hj;
        eauto; congruence.
Qed.

Lemma stop_keeps_latest_frame_witness :
  let w := world_after sample_libs
             (run_to_convert colour_frame ++ [Tick 0 no_frame; Pause]) in
  get_latest_frame w = Some (Bytes (sample_jpeg ++ [Byte.x00] ++ sample_jpeg)) /\
  exists r w', stop sample_libs no_frame w = Some (r, w') /\
               get_latest_frame w' = get_latest_frame w.
Proof.
  intros w. split; [reflexivity|].
  destruct (stop_keeps_latest_frame sample_libs no_frame w
              (world_after_reachable _ _)) as (r & w' & Es & _ & H & _).
  exists r, w'. split; [exact Es|].
  destruct H as [[_ H]|(j & t & pc & Et & E & H2 & _)]; [exact H|].
  vm_compute in Et. injection Et as <-. vm_compute in E. injection E as <-.
  vm_compute in H2. lia.
Defined.

(** The claim of C8 as it was made fails on the fallback path: a frame has
    been published, [stop] is called while the loop is about to encode the
    next one, the encoder reports failure, and when [stop] returns the
    frame store holds absence. *)
Lemma stop_returns_with_absence_after_flagged_encode :
  let w := world_after sample_libs_cv run_to_encode_empty in
  reachable sample_libs_cv w /\
  published w = [Some (Array sample_array)] /\
  get_latest_frame w = Some (Array sample_array) /\
  exists w', stop sample_libs_cv no_frame w = Some (Return tt, w') /\
    published w' = [Some (Array sample_array); None] /\
    get_latest_frame w' = None /\
    get_latest_frame w' <> get_latest_frame w /\
    camera_frame sample_libs_cv w' = Http404 "no frame available".
Proof.
  intros w. split; [apply world_after_reachable|].
  split; [reflexivity|]. split; [reflexivity|].
  eexists. split; [reflexivity|]. repeat split; try reflexivity. discriminate.
Qed.


(** *** [stop] and the state *)

Lemma lookup_release h w c :
  caps w !! h = Some c ->
  exists c', caps (release h w) !! h = Some c' /\ released c'.
Proof.
  intros E. simpl. rewrite E. eexists. split.
  - apply list_lookup_insert_eq. eapply lookup_lt_Some; eassumption.
  - split; simpl; [reflexivity | lia].
Qed.

(** When [stop] returns normally, the state is Stopped, every task has
    ended, and the capture the manager held has been released. *)
Lemma stop_returned_post L inp w w' :
  inv L w -> stop L inp w = Some (Return tt, w') ->
  state_of (mgr w') = Stopped /\
  (forall t pc, tasks w' !! t = Some pc -> finished pc = true) /\
  _cap (mgr w') = None /\ _task (mgr w') = None /\
  (forall h, _cap (mgr w) = Some h ->
             exists c, caps w' !! h = Some c /\ released c).
Proof.
  intros Hinv Es.
  destruct (stop_post L inp w Hinv) as (r & w0 & Es' & _ & Hr & Hfin).
  rewrite Es in Es'. injection Es' as <- <-.
  split; [unfold state_of; now rewrite Hr|]. split; [exact Hfin|].
  pose proof (stop_cases L inp w Hinv) as Hc. simpl in Hc.
  set (w1 := with_mgr (set_running false) w) in *.
  assert (Hcl : exists w2, w' = stop_cleanup w2 /\ _cap (mgr w2) = _cap (mgr w)
                           /\ length (caps w2) = length (caps w)).
  { destruct (_task (mgr w)) as [t|].
    - destruct Hc as [[_ Hc]|(e & _ & Hc)]; rewrite Hc in Es; [|discriminate].
      injection Es as <-. eexists. split; [reflexivity|].
      destruct (run_task_flags await_bound L t inp w1) as (_ & _ & Ec & _).
      split; [exact Ec|]. apply (run_task_length_caps _ L t inp w1).
    - rewrite Hc in Es. injection Es as <-. eexists. split; [reflexivity|].
      split; reflexivity. }
  destruct Hcl as (w2 & -> & Ec & Hlen).
  unfold stop_cleanup. rewrite Ec.
  destruct (_cap (mgr w)) as [h|] eqn:Eh; simpl.
  - split; [reflexivity|]. split; [reflexivity|]. intros h' [= <-].
    destruct Hinv as [H0 _].
    assert (Hlt : h < length (caps w2))
      by (rewrite Hlen; now apply (inv_cap L w H0)).
    apply lookup_lt_is_Some in Hlt as [c E].
    exact (lookup_release h w2 c E).
  - destruct Hinv as [H0 _]. pose proof (inv_frame L w H0).
    assert (_cap (mgr w2) = None) by congruence.
    split; [assumption|]. split; [reflexivity|]. discriminate.
Qed.

(** Once the task [_task] refers to has raised, [stop] raises the same
    exception and does nothing but clear [_running]. *)
Lemma stop_failed_task L inp w t e :
  _task (mgr w) = Some t -> tasks w !! t = Some (PcFailed e) ->
  stop L inp w = Some (Raise e, with_mgr (set_running false) w).
Proof.
  intros Et E. unfold stop, await_task. simpl. rewrite Et.
  rewrite (run_task_finished _ L t inp _ (PcFailed e)) by (exact E || reflexivity).
  simpl. now rewrite E.
Qed.

(** C3: start the manager, let the loop read a one-channel frame and fail
    to convert it, then call [stop]: the call raises the loop's exception
    instead of returning; the capture object stays open and unreleased and
    [_task] is not cleared; a second [stop] raises again and changes
    nothing. *)
Theorem stop_after_loop_failure_leaves_capture_open :
  let w := world_after sample_libs (run_to_convert gray_frame ++ [Tick 0 no_frame]) in
  let e := cv2_error "Invalid number of channels in input image" in
  state_of (mgr w) = Running /\
  tasks w !! 0 = Some (PcFailed e) /\
  exists w', stop sample_libs no_frame w = Some (Raise e, w') /\
    state_of (mgr w') = Stopped /\
    _cap (mgr w') = Some 0 /\
    caps w' !! 0 = Some {| cap_opened := true; cap_releases := 0;
                           cap_reads := 1 |} /\
    _task (mgr w') = Some 0 /\
    stop sample_libs no_frame w' = Some (Raise e, w').
Proof.
  simpl. split; [reflexivity|]. split; [reflexivity|].
  eexists. split; [reflexivity|]. repeat split; reflexivity.
Qed.

(** After a failed [start] the state is Stopped, yet [stop] is not without
    effect: it releases the stale capture object once more and clears
    [_cap]. *)
Lemma stop_after_failed_start_releases_again :
  let w := world_after sample_libs [Start false] in
  state_of (mgr w) = Stopped /\ _cap (mgr w) = Some 0 /\
  caps w !! 0 = Some {| cap_opened := false; cap_releases := 1; cap_reads := 0 |} /\
  exists w', stop sample_libs no_frame w = Some (Return tt, w') /\
    _cap (mgr w') = None /\
    caps w' !! 0 = Some {| cap_opened := false; cap_releases := 2;
                           cap_reads := 0 |}.
Proof.
  simpl. repeat (split; [reflexivity|]). eexists. repeat split; reflexivity.
Qed.


(** *** Failing iterations *)

(** A sleeping task that is resumed with [_running] false returns. *)
Lemma run_task_from_sleep n L t inp w :
  _running (mgr w) = false -> tasks w !! t = Some PcSleepInterval ->
  tasks (run_task (S n) L t inp w) !! t = Some PcDone.
Proof.
  intros Hr E. assert (Hlt : t < length (tasks w)) by (eapply lookup_lt_Some; eauto).
  assert (E' : tasks (loop_resume L t inp w) !! t = Some PcDone).
  { unfold loop_resume, loop_top. rewrite E, Hr. now apply lookup_set_pc_eq. }
  simpl. rewrite E. simpl. now rewrite (run_task_finished n L t inp _ PcDone).
Qed.

(** C1: when the iteration that task [t] is in fails to convert or encode
    its frame, the outcome depends on how it fails.  If a library call
    raises, nothing is published and the frame store keeps the frame of the
    last publishing tick.  If the fallback encoder [cv2.imencode] reports
    failure through its flag, the loop goes on to its next sleep and a
    later [stop] returns normally, but absence is published: the frame
    store no longer holds the previous frame. *)
Theorem failed_iteration_effect
    (L : Libs) (t : nat) (inp : bool * ndarray) (w : world)
    (pc : loop_pc) (k : failure) :
  reachable L w -> tasks w !! t = Some pc -> iteration_failure L pc = Some k ->
  let w' := loop_resume L t inp w in
  match k with
  | Raised e =>
      published w' = published w /\ get_latest_frame w' = get_latest_frame w
  | Flagged =>
      tasks w' !! t = Some PcSleepInterval /\
      published w' = published w ++ [None] /\
      get_latest_frame w' = None /\
      forall inp', exists w2, stop L inp' w' = Some (Return tt, w2)
  end.
Proof.
  intros Hw E Hk. assert (Hlt : t < length (tasks w)) by (eapply lookup_lt_Some; eauto).
  pose proof (reachable_inv L w Hw) as Hinv.
  unfold iteration_failure in Hk. simpl.
  destruct pc; try discriminate.
  - (* converting *)
    unfold loop_resume. rewrite E.
    destruct (cvtColor L frame) as [rgb|e].
    + destruct (Image_present L); [|discriminate].
      destruct (pil_jpeg L rgb) as [jpeg|e]; [discriminate|].
      injection Hk as <-. split; reflexivity.
    + injection Hk as <-. split; reflexivity.
  - (* encoding with cv2.imencode *)
    assert (Et : _task (mgr w) = Some t).
    { destruct Hinv as [H0 _]. now apply (inv_live L w H0 t (PcEncode frame_rgb)). }
    pose proof (loop_resume_inv L t inp w Hinv) as Hinv'.
    destruct (loop_resume_flags L t inp w) as (_ & _ & _ & Et'). simpl in Et'.
    revert Hinv' Et'. unfold loop_resume. rewrite E.
    destruct (cv_imencode L frame_rgb) as [[[|] buf]|e]; try discriminate.
    + injection Hk as <-. intros Hinv' Et'.
      set (w' := set_pc t PcSleepInterval (publish None w)) in *.
      assert (E' : tasks w' !! t = Some PcSleepInterval)
        by now apply list_lookup_insert_eq.
      split; [exact E'|]. split; [reflexivity|]. split; [reflexivity|].
      intros inp'. pose proof (stop_cases L inp' w' Hinv') as Hc. simpl in Hc.
      change (_task (mgr w')) with (_task (mgr w)) in Hc. rewrite Et in Hc.
      destruct Hc as [[_ Hc]|(e & Ee & _)]; [eauto|].
      rewrite await_bound_eq in Ee.
      rewrite (run_task_from_sleep 3 L t inp' (with_mgr (set_running false) w'))
        in Ee by (reflexivity || exact E').
      discriminate.
    + injection Hk as <-. intros _ _. split; reflexivity.
Qed.

Lemma failed_iteration_effect_witness :
  let w := world_after sample_libs_cv run_to_encode_empty in
  let w' := loop_resume sample_libs_cv 0 no_frame w in
  get_latest_frame w = Some (Array sample_array) /\
  tasks w' !! 0 = Some PcSleepInterval /\ get_latest_frame w' = None.
Proof.
  intros w w'. split; [reflexivity|].
  pose proof (failed_iteration_effect sample_libs_cv 0 no_frame w
                (PcEncode []) Flagged (world_after_reachable _ _)
                eq_refl eq_refl) as (H1 & _ & H3 & _).
  split; [exact H1 | exact H3].
Defined.

(** The claim of C1 as it was made fails on both kinds of failure: an
    exception of the conversion ends the loop and is raised by the next
    [stop]; a failure flag of the fallback encoder clears the frame store. *)
Lemma failed_iteration_not_absorbed :
  let w := world_after sample_libs (run_to_convert gray_frame) in
  let e := cv2_error "Invalid number of channels in input image" in
  let v := world_after sample_libs_cv run_to_encode_empty in
  (tasks w !! 0 = Some (PcConvert gray_frame) /\
   iteration_failure sample_libs (PcConvert gray_frame) = Some (Raised e) /\
   tasks (loop_resume sample_libs 0 no_frame w) !! 0 = Some (PcFailed e) /\
   stop sample_libs no_frame (loop_resume sample_libs 0 no_frame w)
     = Some (Raise e, with_mgr (set_running false)
                        (loop_resume sample_libs 0 no_frame w)) /\
   ~ failure_absorbed sample_libs 0 no_frame w) /\
  (tasks v !! 0 = Some (PcEncode []) /\
   iteration_failure sample_libs_cv (PcEncode []) = Some Flagged /\
   get_latest_frame v = Some (Array sample_array) /\
   get_latest_frame (loop_resume sample_libs_cv 0 no_frame v) = None /\
   ~ failure_absorbed sample_libs_cv 0 no_frame v).
Proof.
  split.
  - repeat (split; [reflexivity|]).
    intros ((pc' & E & Hf) & _). vm_compute in E. injection E as <-.
    discriminate.
  - repeat (split; [reflexivity|]).
    intros (_ & _ & H & _). vm_compute in H. discriminate.
Qed.


(** *** The frame store *)

Section Frames.
Variable L : Libs.
Hypothesis Henc : encoders_nonempty L.

Lemma loop_resume_frames_ok t inp w :
  inv0 L w -> frames_ok L w -> frames_ok L (loop_resume L t inp w).
Proof.
  intros H0 Hok. unfold frames_ok in *. destruct Henc as [Hpil Hcv].
  unfold loop_resume, loop_top. repeat case_match; subst; simpl; try assumption;
    apply Forall_app; (split; [assumption|]); constructor; try constructor; simpl;
    try assumption; try (eapply Hpil; eassumption);
    try (eapply Hcv; eassumption);
    eapply (inv_encode L w H0); eassumption.
Qed.

Lemma run_task_frames_ok n t inp w :
  inv0 L w -> frames_ok L w -> frames_ok L (run_task n L t inp w).
Proof.
  revert w. induction n as [|n IH]; intros w H0 Hok; simpl; [assumption|].
  destruct (tasks w !! t) as [pc|]; [|assumption].
  destruct (finished pc); [assumption|].
  apply IH; [now apply loop_resume_inv0 | now apply loop_resume_frames_ok].
Qed.

Lemma step_frames_ok a w w1 :
  inv L w -> frames_ok L w -> step L a w = Some w1 -> frames_ok L w1.
Proof.
  intros Hinv Hok Hs. destruct a; simpl in Hs.
  - injection Hs as <-. rewrite start_unfold. unfold frames_ok.
    repeat case_match; assumption.
  - injection Hs as <-. assumption.
  - injection Hs as <-. unfold resume. destruct (negb (_running (mgr w)));
      [|assumption].
    rewrite start_unfold. unfold frames_ok. repeat case_match; assumption.
  - pose proof (stop_cases L inp w Hinv) as Hc. simpl in Hc.
    destruct Hinv as [H0 _].
    pose proof (set_running_false_inv0 L w H0) as H1.
    assert (Hok1 : frames_ok L (with_mgr (set_running false) w)) by assumption.
    assert (Hcl : forall w2, frames_ok L w2 -> frames_ok L (stop_cleanup w2)).
    { intros w2. unfold frames_ok. now rewrite (proj1 (stop_cleanup_frame w2)). }
    destruct (_task (mgr w)) as [t|].
    + pose proof (run_task_frames_ok await_bound t inp _ H1 Hok1) as Hok2.
      destruct Hc as [[_ Hc]|(e & _ & Hc)]; rewrite Hc in Hs; simpl in Hs;
        injection Hs as <-; auto.
    + rewrite Hc in Hs. simpl in Hs. injection Hs as <-. auto.
  - injection Hs as <-. destruct Hinv as [H0 _].
    now apply loop_resume_frames_ok.
Qed.

Lemma reachable_frames_ok w : reachable L w -> frames_ok L w.
Proof.
  induction 1 as [|a w w1 Hw IH Hs]; [constructor|].
  eapply step_frames_ok; eauto using reachable_inv.
Qed.
End Frames.

Lemma camera_frame_bytes L w b :
  get_latest_frame w = Some (Bytes b) -> b <> [] ->
  camera_frame L w = Http200 b "image/jpeg".
Proof. intros E Hb. unfold camera_frame. rewrite E. now destruct b. Qed.


Lemma sample_encoders_nonempty : encoders_nonempty sample_libs.
Proof.
  split; intros f b; simpl.
  - unfold sample_pil_jpeg. intros [= <-]. discriminate.
  - unfold sample_imencode. destruct f; [discriminate|].
    case_match; [|discriminate]. intros [= <-]. simpl. lia.
Qed.


Lemma sample_truth_of_arrays_raises : truth_of_arrays_raises sample_libs.
Proof. intros [[|x [|y l]]]; simpl; intros H; try lia. reflexivity. Qed.




End CameraFacts.

(** ** Further properties of the camera manager *)

Module CameraProps.
Import Camera CameraFacts.

(** *** [pause] and [resume] *)

(** X7: [pause] followed by [resume] in state Running gives back the very
    same world: no capture is opened, no task is created, nothing is
    published. *)
Theorem pause_resume_restores_running (L : Libs) (o : bool) (w : world) :
  state_of (mgr w) = Running ->
  fst (resume L o (snd (pause w))) = Return tt /\
  snd (resume L o (snd (pause w))) = w.
Proof.
  unfold state_of, resume, pause. simpl.
  destruct w as [[di f c t r p lf] cs ts pub]. simpl.
  destruct r; [|discriminate]. destruct p; [discriminate|]. intros _.
  split; reflexivity.
Qed.

Lemma pause_resume_restores_running_witness :
  let w := world_after sample_libs (run_to_convert colour_frame) in
  snd (resume sample_libs false (snd (pause w))) = w.
Proof.
  intros w.
  exact (proj2 (pause_resume_restores_running sample_libs false w eq_refl)).
Defined.

(** X8: what [resume] leaves behind: when it returns the state is Running;
    when it raises the state was Stopped and still is. *)
Theorem resume_outcome (L : Libs) (o : bool) (w : world) :
  match fst (resume L o w) with
  | Return _ => state_of (mgr (snd (resume L o w))) = Running
  | Raise _ =>
      state_of (mgr w) = Stopped /\
      state_of (mgr (snd (resume L o w))) = Stopped
  end.
Proof.
  unfold resume. destruct (_running (mgr w)) eqn:Er; simpl.
  - unfold state_of. simpl. now rewrite Er.
  - rewrite start_unfold. rewrite Er.
    destruct (cv2_present L); simpl; [destruct o; simpl|];
      unfold state_of; simpl; rewrite ?Er; auto.
Qed.

Lemma toggle_step L a w :
  is_toggle a = true -> state_of (mgr w) <> Stopped ->
  exists w1, step L a w = Some w1 /\
    caps w1 = caps w /\ tasks w1 = tasks w /\ published w1 = published w /\
    _cap (mgr w1) = _cap (mgr w) /\ _task (mgr w1) = _task (mgr w) /\
    state_of (mgr w1) <> Stopped.
Proof.
  intros Ha Hs. apply running_iff_not_stopped in Hs as Hr.
  destruct a; try discriminate; simpl.
  - eexists. split; [reflexivity|]. repeat (split; [reflexivity|]).
    apply running_iff_not_stopped. exact Hr.
  - unfold resume. rewrite Hr. simpl. eexists. split; [reflexivity|].
    repeat (split; [reflexivity|]). apply running_iff_not_stopped. exact Hr.
Qed.

(** X9: however [pause] and [resume] are called one after the other once
    the manager is started, every call returns, and no capture is opened or
    released, no task is created, nothing is published, and the manager
    never gets back to Stopped. *)
Theorem toggling_never_reopens (L : Libs) (acts : list action) (w : world) :
  forallb is_toggle acts = true -> state_of (mgr w) <> Stopped ->
  exists w', run L acts w = Some w' /\
    caps w' = caps w /\ tasks w' = tasks w /\ published w' = published w /\
    _cap (mgr w') = _cap (mgr w) /\ _task (mgr w') = _task (mgr w) /\
    state_of (mgr w') <> Stopped.
Proof.
  revert w. induction acts as [|a acts IH]; intros w Hacts Hs; simpl.
  - exists w. auto 10.
  - simpl in Hacts. apply andb_true_iff in Hacts as [Ha Hacts].
    destruct (toggle_step L a w Ha Hs)
      as (w1 & -> & Ec & Et & Ep & Ecap & Etask & Hs1).
    destruct (IH w1 Hacts Hs1) as (w' & -> & Ec' & Et' & Ep' & Ecap' & Etask' & Hs').
    exists w'. split; [reflexivity|].
    rewrite Ec', Et', Ep', Ecap', Etask'. auto 10.
Qed.

Lemma toggling_never_reopens_witness :
  let w := world_after sample_libs (run_to_convert colour_frame) in
  exists w', run sample_libs [Pause; Pause; Resume false; Resume true; Pause] w
             = Some w' /\ caps w' = caps w /\ tasks w' = tasks w.
Proof.
  intros w.
  destruct (toggling_never_reopens sample_libs
              [Pause; Pause; Resume false; Resume true; Pause] w eq_refl)
    as (w' & E & Ec & Et & _).
  - vm_compute. discriminate.
  - exists w'. auto.
Defined.


(** *** The loop while the manager is paused or stopped *)

Lemma not_running_cases m :
  state_of m <> Running -> _running m = false \/ _paused m = true.
Proof.
  unfold state_of. destruct (_running m), (_paused m); auto.
Qed.

Lemma loop_resume_state L t inp w :
  state_of (mgr (loop_resume L t inp w)) = state_of (mgr w).
Proof.
  destruct (loop_resume_flags L t inp w) as (Er & Ep & _). simpl in Er, Ep.
  unfold state_of. now rewrite Er, Ep.
Qed.

Lemma loop_resume_caps_idle L t inp w :
  state_of (mgr w) <> Running -> caps (loop_resume L t inp w) = caps w.
Proof.
  intros Hs. apply not_running_cases in Hs.
  unfold loop_resume, loop_top. repeat case_match; subst; try reflexivity;
    destruct Hs; congruence.
Qed.

(** X10: while the state is Paused or Stopped the loop leaves the device
    alone: however often and in whatever order tasks are resumed, no
    capture object is read, opened or released, and the state stays what it
    is. *)
Theorem idle_loop_leaves_device_alone
    (L : Libs) (ticks : list (nat * (bool * ndarray))) (w : world) :
  state_of (mgr w) <> Running ->
  caps (resume_all L ticks w) = caps w /\
  state_of (mgr (resume_all L ticks w)) = state_of (mgr w).
Proof.
  revert w. induction ticks as [|[t inp] rest IH]; intros w Hs; simpl; [auto|].
  destruct (IH (loop_resume L t inp w)) as [Ec Est].
  - now rewrite loop_resume_state.
  - rewrite Ec, Est, loop_resume_state. split; [|reflexivity].
    now apply loop_resume_caps_idle.
Qed.

Lemma idle_loop_leaves_device_alone_witness :
  let w := world_after sample_libs
             (run_to_convert colour_frame ++ [Tick 0 no_frame; Pause]) in
  caps (resume_all sample_libs
          [(0, no_frame); (0, (true, colour_frame)); (0, no_frame)] w)
  = [{| cap_opened := true; cap_releases := 0; cap_reads := 1 |}].
Proof.
  intros w.
  destruct (idle_loop_leaves_device_alone sample_libs
              [(0, no_frame); (0, (true, colour_frame)); (0, no_frame)] w)
    as [Ec _].
  - vm_compute. discriminate.
  - rewrite Ec. reflexivity.
Defined.

Lemma loop_resume_quiet L t inp w :
  state_of (mgr w) <> Running -> quiet w ->
  quiet (loop_resume L t inp w) /\
  published (loop_resume L t inp w) = published w.
Proof.
  intros Hs Hq. split.
  - intros t' pc' E. destruct (decide (t = t')) as [<-|Hne].
    + apply not_running_cases in Hs.
      destruct (tasks w !! t) as [pc|] eqn:E0.
      * pose proof (Hq t pc E0) as Hpc.
        assert (Hlt : t < length (tasks w)) by (eapply lookup_lt_Some; eauto).
        revert E. unfold loop_resume, loop_top. rewrite E0.
        destruct pc; simpl in Hpc; try lia; repeat case_match; subst;
          rewrite ?lookup_set_pc_eq by (simpl; assumption);
          try (intros [= <-]; simpl; lia);
          try (rewrite E0; intros [= <-]; simpl; lia);
          try (destruct Hs; congruence).
      * unfold loop_resume in E. rewrite E0 in E. congruence.
    + rewrite loop_resume_other in E by assumption. eapply Hq; eassumption.
  - destruct (loop_resume_published L t inp w)
      as [Hp|(j & pc & E & H2 & _)]; [exact Hp|].
    specialize (Hq t pc E). lia.
Qed.

Lemma resume_all_quiet L ticks w :
  state_of (mgr w) <> Running -> quiet w ->
  published (resume_all L ticks w) = published w.
Proof.
  revert w. induction ticks as [|[t inp] rest IH]; intros w Hs Hq; simpl;
    [reflexivity|].
  destruct (loop_resume_quiet L t inp w Hs Hq) as [Hq1 Hp].
  rewrite IH; [exact Hp | now rewrite loop_resume_state | exact Hq1].
Qed.

Lemma loop_resume_single L t inp w :
  single_loop w -> single_loop (loop_resume L t inp w).
Proof.
  intros H t1 t2 pc1 pc2 E1 H1 E2 H2.
  assert (Hold : forall t' pc', tasks (loop_resume L t inp w) !! t' = Some pc' ->
            finished pc' = false ->
            exists pc, tasks w !! t' = Some pc /\ finished pc = false).
  { intros t' pc' E Hf. destruct (decide (t = t')) as [<-|Hne].
    - eapply loop_resume_unfinished; eassumption.
    - rewrite loop_resume_other in E by assumption. eauto. }
  destruct (Hold t1 pc1 E1 H1) as (q1 & Eq1 & Hq1).
  destruct (Hold t2 pc2 E2 H2) as (q2 & Eq2 & Hq2).
  eapply H; eassumption.
Qed.

(** X11: with a single capture loop alive and the manager paused or
    stopped, the loop publishes at most one more frame -- that of the
    iteration it was in -- however often it is resumed. *)
Theorem idle_loop_publishes_at_most_once
    (L : Libs) (ticks : list (nat * (bool * ndarray))) (w : world) :
  single_loop w -> state_of (mgr w) <> Running ->
  published (resume_all L ticks w) = published w \/
  exists j, published (resume_all L ticks w) = published w ++ [j].
Proof.
  revert w.
  induction ticks as [|[t inp] rest IH]; intros w H1 Hs; simpl; [now left|].
  pose proof (loop_resume_single L t inp w H1) as H1'.
  assert (Hs1 : state_of (mgr (loop_resume L t inp w)) <> Running)
    by now rewrite loop_resume_state.
  destruct (loop_resume_published L t inp w)
    as [Hp|(j & pc & E & H2 & Hp & Enew)].
  - rewrite <- Hp. now apply IH.
  - right. exists j. rewrite <- Hp. apply resume_all_quiet; [exact Hs1|].
    intros t' pc' E'. destruct (decide (t = t')) as [<-|Hne].
    + rewrite Enew in E'. injection E' as <-. simpl. lia.
    + destruct (finished pc') eqn:Hf.
      * destruct pc'; try discriminate; simpl; lia.
      * exfalso. apply Hne.
        exact (H1' t t' PcSleepInterval pc' Enew eq_refl E' Hf).
Qed.

Lemma idle_loop_publishes_at_most_once_witness :
  let w := world_after sample_libs (run_to_convert colour_frame ++ [Pause]) in
  let w' := resume_all sample_libs
              [(0, no_frame); (0, no_frame); (0, (true, colour_frame));
               (0, no_frame); (0, no_frame)] w in
  published w = [] /\ length (published w') = 1.
Proof.
  intros w w'. split; [reflexivity|].
  destruct (idle_loop_publishes_at_most_once sample_libs
              [(0, no_frame); (0, no_frame); (0, (true, colour_frame));
               (0, no_frame); (0, no_frame)] w) as [E|[j E]].
  - intros [|[|t1]] [|[|t2]] pc1 pc2 E1 H1 E2 H2; try reflexivity;
      vm_compute in E1, E2; discriminate.
  - vm_compute. discriminate.
  - vm_compute in E. discriminate.
  - unfold w'. rewrite E. reflexivity.
Defined.

(** *** What a resumption does to the captures *)

Lemma lookup_count_read h h' w c :
  caps w !! h = Some c ->
  exists c1, caps (count_read h' w) !! h = Some c1 /\
    cap_opened c1 = cap_opened c /\ cap_releases c1 = cap_releases c /\
    (cap_reads c1 = cap_reads c \/ (cap_reads c1 = S (cap_reads c) /\ h' = h)).
Proof.
  intros E. simpl. destruct (caps w !! h') as [c'|] eqn:E'; [|eauto 10].
  destruct (decide (h' = h)) as [->|Hne].
  - rewrite list_lookup_insert_eq by (eapply lookup_lt_Some; eauto).
    rewrite E in E'. injection E' as <-. eexists. split; [reflexivity|].
    simpl. auto.
  - rewrite list_lookup_insert_ne by assumption. eauto 10.
Qed.

(** X12: one resumption of the capture loop creates, opens and releases no
    capture, and issues at most one read: on the capture [_cap] refers to,
    and only while [_running] is set and [_paused] is not. *)
Theorem loop_reads_only_the_current_capture
    (L : Libs) (t : nat) (inp : bool * ndarray) (w : world)
    (h : nat) (c : capture) :
  caps w !! h = Some c ->
  length (caps (loop_resume L t inp w)) = length (caps w) /\
  exists c1, caps (loop_resume L t inp w) !! h = Some c1 /\
    cap_opened c1 = cap_opened c /\ cap_releases c1 = cap_releases c /\
    (cap_reads c1 = cap_reads c \/
     (cap_reads c1 = S (cap_reads c) /\ _running (mgr w) = true /\
      _paused (mgr w) = false /\ _cap (mgr w) = Some h)).
Proof.
  intros E. split; [apply loop_resume_length_caps|].
  unfold loop_resume, loop_top.
  repeat case_match; subst; simpl tasks; simpl mgr;
    try (exists c; split; [exact E | auto]);
    match goal with
    | |- context [count_read ?h' w] =>
        destruct (lookup_count_read h h' w c E) as (c1 & E1 & Ho & Hr & Hd);
        exists c1; split; [exact E1|]; split; [exact Ho|]; split; [exact Hr|];
        destruct Hd as [Hd | [Hd ->]]; auto
    end.
Qed.

Lemma loop_reads_only_the_current_capture_witness :
  let w := world_after sample_libs
             (run_to_convert colour_frame ++
              [Stop no_frame; Start true; Tick 1 no_frame; Tick 1 no_frame]) in
  caps w !! 0 = Some {| cap_opened := false; cap_releases := 1; cap_reads := 1 |} /\
  exists c1, caps (loop_resume sample_libs 1 no_frame w) !! 0 = Some c1 /\
             cap_reads c1 = 1 /\ cap_releases c1 = 1.
Proof.
  intros w. split; [reflexivity|].
  destruct (loop_reads_only_the_current_capture sample_libs 1 no_frame w 0
              {| cap_opened := false; cap_releases := 1; cap_reads := 1 |}
              eq_refl) as (_ & c1 & E1 & _ & Hr & [Hd|(_ & _ & _ & Hc)]).
  - exists c1. auto.
  - vm_compute in Hc. discriminate.
Defined.

(** *** [status] and the frame endpoint *)

(** X15: [status] and the frame endpoint.  In a reachable world (encoders
    that deliver data, numpy refusing a truth value to arrays of more than
    one element) "has_frame" is false exactly when the endpoint answers
    404.  When it is true, the endpoint answers 200 with the stored bytes
    if Pillow is installed, and on the fallback path it raises on the
    stored array instead of answering. *)
Theorem has_frame_iff_frame_served (L : Libs) (w : world) :
  encoders_nonempty L -> truth_of_arrays_raises L -> reachable L w ->
  (snd (status w) = false <->
   camera_frame L w = Http404 "no frame available") /\
  (Image_present L = true ->
   (snd (status w) = true <->
    exists b, get_latest_frame w = Some (Bytes b) /\
              camera_frame L w = Http200 b "image/jpeg")) /\
  (Image_present L = false ->
   (snd (status w) = true <->
    exists a, get_latest_frame w = Some (Array a) /\
              camera_frame L w = FrameRaises ambiguous)).
Proof.
  intros Henc Htruth Hw. pose proof (reachable_frames_ok L Henc w Hw) as Hok.
  destruct (reachable_inv L w Hw) as [H0 _].
  pose proof (inv_frame L w H0) as Hf.
  assert (Hgood : good_frame L (_latest_frame (mgr w)) \/
                  _latest_frame (mgr w) = None).
  { rewrite Hf. destruct (last (published w)) as [j|] eqn:El; simpl; [|auto].
    left. apply last_Some_elem_of in El.
    unfold frames_ok in Hok. rewrite Forall_forall in Hok. exact (Hok _ El). }
  unfold status, camera_frame, get_latest_frame. simpl.
  destruct (_latest_frame (mgr w)) as [[b|a]|] eqn:E.
  - destruct Hgood as [[Hi Hb]|?]; [|discriminate].
    destruct b as [|x b]; [congruence|].
    split; [split; discriminate|]. split; [|congruence].
    intros _. split; [eauto | reflexivity].
  - destruct Hgood as [[Hi Ha]|?]; [|discriminate].
    rewrite (Htruth a Ha).
    split; [split; discriminate|]. split; [congruence|].
    intros _. split; [eauto | reflexivity].
  - split; [split; reflexivity|].
    split; intros _; (split; [discriminate|]); intros (x & Hx & _);
      discriminate.
Qed.

Lemma has_frame_iff_frame_served_witness :
  let w := world_after sample_libs
             (run_to_convert colour_frame ++ [Tick 0 no_frame]) in
  snd (status init) = false /\ snd (status w) = true /\
  exists b, camera_frame sample_libs w = Http200 b "image/jpeg".
Proof.
  intros w. split; [reflexivity|]. split; [reflexivity|].
  destruct (has_frame_iff_frame_served sample_libs w sample_encoders_nonempty
              sample_truth_of_arrays_raises
              (world_after_reachable _ _)) as (_ & H & _).
  destruct (proj1 (H eq_refl) eq_refl) as (b & _ & Hb). eauto.
Defined.

End CameraProps.

(** ** The code analyzer *)

Module AnalyzerFacts.
Import Py Analyzer.

Example splitlines_sample :
  splitlines sample_code
  = [lit "def f():"; lit " try:"; lit "  pass  # TODO"; lit " except:"; lit "  pass"].
Proof. reflexivity. Qed.

Example splitlines_blank : splitlines (lit "a" ++ [10; 10]%N ++ lit "b") = [lit "a"; []; lit "b"].
Proof. reflexivity. Qed.

Example analyze_sample :
  analyze_code sample_env sample_code
  = Return {| syntax_error := None;
              metrics := <["classes" := 0%Z]>
                           (<["functions" := 1%Z]> (<["lines" := 5%Z]> ∅));
              notes := [NoteTodos [3%Z]; NoteBareExcept [Some 4%Z]];
              ai_review := None |}.
Proof. reflexivity. Qed.

(** C10: when [ast.parse] raises a [SyntaxError], [analyze_code] returns
    (it does not raise) a dictionary whose "syntax_error" holds the message,
    the line number and the offset of the error and whose "metrics" and
    "notes" are empty; when [ast.parse] returns a tree, [analyze_code]
    returns a dictionary whose "syntax_error" is [None]. *)
Theorem analyze_code_syntax_error (E : PyEnv) (code : str) :
  (forall se, ast_parse E code = ParseSyntaxError se ->
     analyze_code E code
     = Return {| syntax_error := Some {| msg := se_str se;
                                         lineno := se_lineno se;
                                         offset := se_offset se |};
                 metrics := ∅; notes := []; ai_review := None |}) /\
  (forall tree, ast_parse E code = ParseOk tree ->
     exists r, analyze_code E code = Return r /\ syntax_error r = None).
Proof.
  split.
  - intros se H. unfold analyze_code. now rewrite H.
  - intros tree H. unfold analyze_code. rewrite H. eexists.
    split; reflexivity.
Qed.

Lemma analyze_code_syntax_error_witness :
  (exists r, analyze_code sample_env (lit "(") = Return r /\
             syntax_error r = Some {| msg := "'(' was never closed (<unknown>, line 1)";
                                      lineno := Some 1%Z; offset := Some 1%Z |} /\
             metrics r = ∅ /\ notes r = []) /\
  (exists r, analyze_code sample_env sample_code = Return r /\
             syntax_error r = None).
Proof.
  destruct (analyze_code_syntax_error sample_env (lit "(")) as [H1 _].
  destruct (analyze_code_syntax_error sample_env sample_code) as [_ H2].
  split.
  - eexists. split; [exact (H1 _ eq_refl)|]. repeat split; reflexivity.
  - exact (H2 _ eq_refl).
Defined.

(** Any other exception of the parser is not caught. *)
Lemma analyze_code_other_exception E code e :
  ast_parse E code = ParseRaise e -> analyze_code E code = Raise e.
Proof. intros H. unfold analyze_code. now rewrite H. Qed.

End AnalyzerFacts.

(** ** Further properties of the code analyzer *)

Module AnalyzerProps.
Import Py Analyzer.

(** *** [splitlines] *)

Lemma splitlines_from_spec (n : nat) : forall (s cur : str),
  length s <= n ->
  Forall (fun c => is_linebreak c = false) cur ->
  concat (splitlines_from cur s)
    = rev cur ++ filter (fun c => is_linebreak c = false) s /\
  Forall (Forall (fun c => is_linebreak c = false)) (splitlines_from cur s).
Proof.
  induction n as [|n IH]; intros s cur Hlen Hcur.
  - destruct s; [|simpl in Hlen; lia]. destruct cur as [|c cur];
      cbn [splitlines_from].
    + split; [reflexivity | constructor].
    + split; [reflexivity|].
      constructor; [|constructor]. now apply Forall_rev.
  - destruct s as [|c rest].
    { apply (IH [] cur); [simpl; lia | assumption]. }
    simpl in Hlen. cbn [splitlines_from].
    destruct (is_linebreak c) eqn:Ec.
    + assert (Hdrop : filter (fun c0 => is_linebreak c0 = false) (c :: rest)
                      = filter (fun c0 => is_linebreak c0 = false) rest).
      { rewrite filter_cons. destruct (decide (is_linebreak c = false)); congruence. }
      rewrite Hdrop.
      assert (Hrest : forall tail,
                (tail = rest \/ rest = 10%N :: tail) ->
                length tail <= n ->
                concat (rev cur :: splitlines_from [] tail)
                  = rev cur ++ filter (fun c => is_linebreak c = false) rest /\
                Forall (Forall (fun c => is_linebreak c = false))
                  (rev cur :: splitlines_from [] tail)).
      { intros tail Htail Hl.
        destruct (IH tail [] Hl (Forall_nil_2 _)) as (Hc & Hf).
        simpl in Hc. split.
        - simpl. rewrite Hc. f_equal.
          destruct Htail as [->| ->]; [reflexivity|].
          rewrite filter_cons. simpl. reflexivity.
        - constructor; [now apply Forall_rev | exact Hf]. }
      destruct rest as [|c' rest'].
      * apply Hrest; [now left | simpl; lia].
      * destruct ((c =? 13)%N && (c' =? 10)%N) eqn:Ecr.
        -- apply andb_true_iff in Ecr as [_ Ec']. apply N.eqb_eq in Ec'.
           subst c'. apply Hrest; [now right | simpl in Hlen; lia].
        -- apply Hrest; [now left | simpl in *; lia].
    + assert (Hkeep : filter (fun c0 => is_linebreak c0 = false) (c :: rest)
                      = c :: filter (fun c0 => is_linebreak c0 = false) rest).
      { rewrite filter_cons. destruct (decide (is_linebreak c = false)); congruence. }
      rewrite Hkeep.
      destruct (IH rest (c :: cur)) as (Hc & Hf);
        [lia | now constructor|].
      split; [|exact Hf].
      rewrite Hc. simpl. now rewrite <- app_assoc.
Qed.

Lemma splitlines_from_nil (s cur : str) :
  splitlines_from cur s = [] <-> cur = [] /\ s = [].
Proof.
  revert cur. induction s as [|c rest IH]; intros cur; cbn [splitlines_from].
  - destruct cur; split; try discriminate; auto. intros [? _]. discriminate.
  - destruct (is_linebreak c).
    + split; [discriminate | intros [_ ?]; discriminate].
    + rewrite IH. split; intros [? ?]; discriminate.
Qed.

(** [splitlines] drops the line boundaries and nothing else: no line
    contains a boundary character, the lines put together are the text
    without its boundary characters, and only the empty text has no line. *)
Theorem splitlines_drops_only_boundaries (s : str) :
  Forall (Forall (fun c => is_linebreak c = false)) (splitlines s) /\
  concat (splitlines s) = filter (fun c => is_linebreak c = false) s /\
  (splitlines s = [] <-> s = []).
Proof.
  destruct (splitlines_from_spec (length s) s [] (le_n _) (Forall_nil_2 _))
    as [Hc Hf].
  split; [exact Hf|]. split; [exact Hc|].
  unfold splitlines. rewrite splitlines_from_nil. tauto.
Qed.

(** *** Substrings and line numbers *)

Lemma starts_with_spec (pat s : str) :
  starts_with pat s = true <-> exists post, s = pat ++ post.
Proof.
  revert s. induction pat as [|p pat IH]; intros s; simpl.
  - split; eauto.
  - destruct s as [|c s].
    + split; [discriminate | intros [post ?]; discriminate].
    + rewrite andb_true_iff, N.eqb_eq, IH. split.
      * intros [-> [post ->]]. eauto.
      * intros [post [= -> ->]]. eauto.
Qed.

(** [contains pat s], the model of Python's [pat in s], holds exactly
    when [pat] occurs in [s] as a contiguous piece. *)
Theorem contains_iff_substring (pat s : str) :
  contains pat s = true <-> exists pre post, s = pre ++ pat ++ post.
Proof.
  induction s as [|c s IH]; simpl; rewrite orb_true_iff, starts_with_spec.
  - split.
    + intros [[post E]|?]; [|discriminate]. exists [], post. exact E.
    + intros (pre & post & E). left. destruct pre; [eauto|discriminate].
  - rewrite IH. split.
    + intros [[post E]|(pre & post & ->)].
      * exists [], post. exact E.
      * exists (c :: pre), post. reflexivity.
    + intros (pre & post & E). destruct pre as [|c' pre].
      * left. eauto.
      * right. injection E as -> ->. eauto.
Qed.

Lemma line_numbers_spec (p : str -> bool) (lines : list str) : forall (i n : Z),
  n ∈ line_numbers p i lines <->
  exists (k : nat) (l : str),
    lines !! k = Some l /\ p l = true /\ n = (i + Z.of_nat k + 1)%Z.
Proof.
  induction lines as [|l lines IH]; intros i n; simpl.
  - split; [intros H; now apply elem_of_nil in H|].
    intros (k & l & E & _). now rewrite lookup_nil in E.
  - assert (Htail : n ∈ line_numbers p (i + 1) lines <->
              exists (k : nat) (l0 : str), (l :: lines) !! S k = Some l0 /\
                p l0 = true /\ n = (i + Z.of_nat (S k) + 1)%Z).
    { rewrite IH. split; intros (k & l0 & E & Hp & ->); exists k, l0;
        (split; [exact E|]); (split; [exact Hp|]); lia. }
    destruct (p l) eqn:Hl.
    + rewrite elem_of_cons, Htail. split.
      * intros [->|(k & l0 & H)]; [|eauto].
        exists 0%nat, l. split; [reflexivity|]. split; [exact Hl | lia].
      * intros ([|k] & l0 & E & Hp & ->); [left; lia|]. right. eauto.
    + rewrite Htail. split.
      * intros (k & l0 & H). eauto.
      * intros ([|k] & l0 & E & Hp & ->); [|eauto].
        simpl in E. injection E as <-. congruence.
Qed.

Lemma line_numbers_above (p : str -> bool) (lines : list str) : forall (i : Z),
  Forall (fun n => (i < n)%Z) (line_numbers p i lines).
Proof.
  induction lines as [|l lines IH]; intros i; simpl; [constructor|].
  assert (Forall (fun n => (i < n)%Z) (line_numbers p (i + 1) lines)).
  { eapply Forall_impl; [apply IH|]. simpl. intros; lia. }
  destruct (p l); [constructor; [lia|assumption] | assumption].
Qed.

Lemma line_numbers_sorted (p : str -> bool) (lines : list str) : forall (i : Z),
  StronglySorted Z.lt (line_numbers p i lines).
Proof.
  induction lines as [|l lines IH]; intros i; simpl; [constructor|].
  destruct (p l); [|apply IH].
  constructor; [apply IH | apply line_numbers_above].
Qed.

(** X16: the line numbers reported for a test [p] ("TODO"/"FIXME" lines,
    long lines) are exactly the one-based positions of the lines that pass
    the test, each once and in increasing order. *)
Theorem line_numbers_are_the_matching_lines (p : str -> bool) (lines : list str) :
  (forall n, n ∈ line_numbers p 0 lines <->
     exists (k : nat) (l : str),
       lines !! k = Some l /\ p l = true /\ n = (Z.of_nat k + 1)%Z) /\
  StronglySorted Z.lt (line_numbers p 0 lines).
Proof.
  split; [|apply line_numbers_sorted].
  intros n. rewrite line_numbers_spec. split;
    intros (k & l & E & Hp & ->); exists k, l; auto.
Qed.

Lemma line_numbers_are_the_matching_lines_witness :
  line_numbers has_todo 0 (splitlines sample_code) = [3%Z] /\
  3%Z ∈ line_numbers has_todo 0 (splitlines sample_code).
Proof.
  split; [reflexivity|].
  apply (proj1 (line_numbers_are_the_matching_lines has_todo
                  (splitlines sample_code))).
  exists 2%nat, (lit "  pass  # TODO"). repeat split; reflexivity.
Defined.

(** *** [ast.walk] *)

Lemma walk_queue_perm (todo : list ast) :
  walk_queue todo ≡ₚ concat (map nodes todo).
Proof.
  funelim (walk_queue todo); simp walk_queue; [reflexivity|].
  match goal with IH : walk_queue _ ≡ₚ _ |- _ => rewrite IH end.
  destruct n as [c l b cs]. simpl.
  rewrite map_app, concat_app. constructor. apply Permutation_app_comm.
Qed.

(** Induction over trees, with the hypothesis for every child. *)
Lemma ast_children_ind (P : ast -> Prop) :
  (forall c l b cs, Forall P cs -> P (Node c l b cs)) -> forall n, P n.
Proof.
  intros H. fix F 1. intros [c l b cs]. apply H.
  induction cs as [|x xs IH]; constructor; [apply F | exact IH].
Qed.

Lemma walk_perm (tree : ast) : walk tree ≡ₚ nodes tree.
Proof. unfold walk. rewrite walk_queue_perm. simpl. now rewrite app_nil_r. Qed.

Lemma length_nodes (n : ast) : length (nodes n) = size n.
Proof.
  induction n as [c l b cs IH] using ast_children_ind.
  simpl. f_equal. induction IH as [|x xs Hx _ IHxs]; simpl; [reflexivity|].
  rewrite length_app, Hx, IHxs. reflexivity.
Qed.

(** X17: the "functions" and "classes" metrics count the nodes of that
    class anywhere in the tree, nested ones included: the breadth-first
    walk they are computed from starts with the root and visits every node
    of the tree exactly once. *)
Theorem walk_visits_every_node_once (tree : ast) :
  walk tree ≡ₚ nodes tree /\
  head (walk tree) = Some tree /\
  length (walk tree) = size tree /\
  forall cls, count_class cls tree
              = Z.of_nat (length (filter (fun n => node_cls n = cls) (nodes tree))).
Proof.
  pose proof (walk_perm tree) as Hp.
  split; [exact Hp|]. split; [|split].
  - unfold walk. now simp walk_queue.
  - rewrite <- length_nodes. now apply Permutation_length.
  - intros cls. unfold count_class. f_equal. apply Permutation_length.
    now apply filter_Permutation.
Qed.


(** *** The report *)

Lemma add_note_elem {A} (mk : list A -> note) (ls : list A) (ns : list note) x :
  x ∈ add_note mk ls ns <-> x ∈ ns \/ (ls <> [] /\ x = mk ls).
Proof.
  unfold add_note. destruct ls as [|l ls].
  - split; [auto | intros [?|[? _]]; congruence].
  - rewrite elem_of_app, list_elem_of_singleton. split.
    + intros [?|?]; [auto | right; split; [discriminate | assumption]].
    + intros [?|[_ ?]]; auto.
Qed.

Lemma length_add_note {A} (mk : list A -> note) (ls : list A) (ns : list note) :
  length (add_note mk ls ns) <= S (length ns).
Proof.
  unfold add_note. destruct ls; [lia|]. rewrite length_app. simpl. lia.
Qed.

Lemma line_numbers_nonempty (p : str -> bool) (lines : list str) :
  line_numbers p 0 lines <> [] <-> exists l, l ∈ lines /\ p l = true.
Proof.
  split.
  - intros H. destruct (line_numbers p 0 lines) as [|n ns] eqn:E; [congruence|].
    assert (Hn : n ∈ line_numbers p 0 lines) by (rewrite E; left).
    apply line_numbers_spec in Hn as (k & l & El & Hp & _).
    exists l. split; [|exact Hp]. apply list_elem_of_lookup. eauto.
  - intros (l & Hl & Hp) E. apply list_elem_of_lookup in Hl as [k Hk].
    assert (Hn : (0 + Z.of_nat k + 1)%Z ∈ line_numbers p 0 lines)
      by (apply line_numbers_spec; eauto).
    rewrite E in Hn. now apply elem_of_nil in Hn.
Qed.

(** X18: the report for code that parses.  [analyze_code] returns; the
    metrics have exactly the keys "lines", "functions" and "classes", with
    values that are not negative; there are at most three notes, none with
    an empty list of lines; and a note of a kind is there exactly when
    there is something to report: a line with "TODO" or "FIXME", a line of
    more than 120 characters, a bare [except] anywhere in the tree. *)
Theorem analyze_code_report (E : PyEnv) (code : str) (tree : ast) :
  ast_parse E code = ParseOk tree ->
  exists r, analyze_code E code = Return r /\
    dom (metrics r) = ({["lines"; "functions"; "classes"]} : gset string) /\
    map_Forall (fun _ v => (0 <= v)%Z) (metrics r) /\
    length (notes r) <= 3 /\
    Forall (fun n => note_is_empty n = false) (notes r) /\
    ((exists ls, NoteTodos ls ∈ notes r) <->
     exists l pre post, l ∈ splitlines code /\
       (l = pre ++ lit "TODO" ++ post \/ l = pre ++ lit "FIXME" ++ post)) /\
    ((exists ls, NoteLongLines ls ∈ notes r) <->
     exists l, l ∈ splitlines code /\ (120 < Z.of_nat (length l))%Z) /\
    ((exists ls, NoteBareExcept ls ∈ notes r) <->
     exists n, n ∈ nodes tree /\ is_bare_except n = true).
Proof.
  intros Hp. unfold analyze_code. rewrite Hp. eexists. split; [reflexivity|].
  cbn [metrics notes].
  set (todos := line_numbers has_todo 0 (splitlines code)).
  set (longs := line_numbers is_long 0 (splitlines code)).
  set (bares := map node_lineno
                  (filter (fun n => is_bare_except n = true) (walk tree))).
  assert (Hbares : bares <> [] <->
            exists n, n ∈ nodes tree /\ is_bare_except n = true).
  { unfold bares. pose proof (walk_perm tree) as Hperm.
    split.
    - intros H.
      destruct (filter (fun n => is_bare_except n = true) (walk tree))
        as [|n ns] eqn:Ef; [now simpl in H|].
      assert (Hn : n ∈ filter (fun n => is_bare_except n = true) (walk tree))
        by (rewrite Ef; left).
      apply list_elem_of_filter in Hn as [Hb Hn]. exists n. split; [|exact Hb].
      now rewrite <- Hperm.
    - intros (n & Hn & Hb) H. rewrite <- Hperm in Hn.
      assert (Hf : n ∈ filter (fun n => is_bare_except n = true) (walk tree))
        by (apply list_elem_of_filter; auto).
      destruct (filter (fun n => is_bare_except n = true) (walk tree));
        [now apply elem_of_nil in Hf | discriminate]. }
  split; [|split; [|split; [|split; [|split; [|split]]]]].
  - rewrite !dom_insert_L, dom_empty_L. set_solver.
  - repeat (apply map_Forall_insert_2; [unfold count_class; lia|]).
    apply map_Forall_empty.
  - pose proof (length_add_note NoteBareExcept bares
                  (add_note NoteLongLines longs (add_note NoteTodos todos []))).
    pose proof (length_add_note NoteLongLines longs (add_note NoteTodos todos [])).
    pose proof (length_add_note NoteTodos todos []). simpl in *. lia.
  - apply Forall_forall. intros n Hn.
    repeat (apply add_note_elem in Hn as [Hn|[Hne ->]]);
      [now apply elem_of_nil in Hn | | |];
      match goal with H : ?l <> [] |- _ => destruct l; [congruence|reflexivity] end.
  - assert (Htodo : (exists l pre post, l ∈ splitlines code /\
                       (l = pre ++ lit "TODO" ++ post \/
                        l = pre ++ lit "FIXME" ++ post))
                    <-> exists l, l ∈ splitlines code /\ has_todo l = true).
    { unfold has_todo. split.
      - intros (l & pre & post & Hl & H). exists l. split; [exact Hl|].
        apply orb_true_iff. destruct H as [H|H]; [left|right];
          apply contains_iff_substring; eauto.
      - intros (l & Hl & H). apply orb_true_iff in H as [H|H];
          apply contains_iff_substring in H as (pre & post & H);
          exists l, pre, post; auto. }
    rewrite Htodo, <- (line_numbers_nonempty has_todo). fold todos. split.
    + intros (ls & Hn).
      repeat (apply add_note_elem in Hn as [Hn|[Hne Hn]]); try discriminate.
      * now apply elem_of_nil in Hn.
      * exact Hne.
    + intros Hne. exists todos. rewrite !add_note_elem. auto.
  - assert (Hlong : (exists l, l ∈ splitlines code /\ (120 < Z.of_nat (length l))%Z)
                    <-> exists l, l ∈ splitlines code /\ is_long l = true).
    { unfold is_long. split; intros (l & Hl & H); exists l; (split; [exact Hl|]);
        [now apply Z.ltb_lt | now apply Z.ltb_lt in H]. }
    rewrite Hlong, <- (line_numbers_nonempty is_long). fold longs. split.
    + intros (ls & Hn).
      repeat (apply add_note_elem in Hn as [Hn|[Hne Hn]]); try discriminate.
      * now apply elem_of_nil in Hn.
      * exact Hne.
    + intros Hne. exists longs. rewrite !add_note_elem. auto.
  - rewrite <- Hbares. split.
    + intros (ls & Hn).
      repeat (apply add_note_elem in Hn as [Hn|[Hne Hn]]); try discriminate.
      * now apply elem_of_nil in Hn.
      * exact Hne.
    + intros Hne. exists bares. rewrite !add_note_elem. auto.
Qed.

Lemma analyze_code_report_witness :
  exists r, analyze_code sample_env sample_code = Return r /\
    length (notes r) <= 3 /\
    (exists ls, NoteTodos ls ∈ notes r) /\
    (exists ls, NoteBareExcept ls ∈ notes r).
Proof.
  destruct (analyze_code_report sample_env sample_code _ eq_refl)
    as (r & E & _ & _ & Hlen & _ & Htodo & _ & Hbare).
  exists r. split; [exact E|]. split; [exact Hlen|]. split.
  - apply Htodo. exists (lit "  pass  # TODO"), (lit "  pass  # "), [].
    split; [|left; reflexivity].
    vm_compute. do 2 right. left.
  - apply Hbare.
    exists (Node "ExceptHandler" (Some 4%Z) true [Node "Pass" (Some 5%Z) false []]).
    split; [|reflexivity].
    cbn. do 5 right. left.
Defined.

End AnalyzerProps.

(** ** The HTTP handlers *)

Module AppFacts.
Import Py Bucket Camera Analyzer App CameraFacts.

(** X19: a request that is answered 400 or 429 never reaches a handler:
    the camera is exactly as before, and with 400 so is the dictionary of
    buckets.  No handler answers with either code. *)
Theorem rejected_request_leaves_camera_alone
    (rnd : Q -> Q) (L : Libs) (E : PyEnv) (hdr : option string) (t0 t1 : Q)
    (ep : endpoint) (a a' : app) (code : Z) (b : body) :
  handle rnd L E hdr t0 t1 ep a = Some (Reply code b, a') ->
  code = 400%Z \/ code = 429%Z ->
  app_camera a' = app_camera a /\
  fst (rate_limit_middleware rnd (app_buckets a) hdr t0 t1) <> GatePass /\
  (code = 400%Z -> app_buckets a' = app_buckets a).
Proof.
  unfold handle. intros H Hc.
  pose proof (BucketFacts.middleware_400_keeps_buckets
                rnd (app_buckets a) hdr t0 t1) as Hmw.
  destruct (rate_limit_middleware rnd (app_buckets a) hdr t0 t1) as [g bs].
  simpl in *. destruct g.
  - injection H as <- <- <-. simpl. split; [reflexivity|].
    split; [discriminate|]. intros _. now apply Hmw.
  - injection H as <- <- <-. simpl. split; [reflexivity|].
    split; [discriminate|]. lia.
  - exfalso. destruct (call_next L E ep (app_camera a)) as [[r w]|] eqn:Ec;
      [|discriminate].
    injection H as -> <-.
    destruct ep; simpl in Ec; unfold answer in Ec; repeat case_match;
      simplify_eq/=; try lia;
      destruct (stop L inp (app_camera a)) as [[[] ?]|]; simplify_eq/=; lia.
Qed.

Lemma rejected_request_leaves_camera_alone_witness :
  let a := {| app_buckets := ∅; app_camera := init |} in
  exists a', handle round_grid sample_libs sample_env None 0 0
               (CameraStart true) a
             = Some (Reply 400 (JsonDetail "x-user-id header required"), a') /\
             app_camera a' = init.
Proof.
  intros a. eexists. split; [reflexivity|].
  eapply (rejected_request_leaves_camera_alone round_grid sample_libs sample_env
            None 0 0 (CameraStart true) a); [reflexivity | now left].
Defined.

End AppFacts.
